(** * overlay / overlayUTF8 (src/Functions/overlay.cpp)

    A shallow embedding of [FunctionOverlay<is_utf8>]: the offset resolver
    [getValidOffset], the slice measure [getSliceSize], the four execution
    variants [constantConstant], [vectorConstant], [constantVector] and
    [vectorVector] with their three template flags, and the dispatcher
    [executeImpl].

    Conventions.
    - [size_t] / [UInt64] values are [Z] in [0, 2^64); every arithmetic
      operation of the source on them is written with its wrap-around
      ([+%], [-%], [to_size_t]).  [Int64] values are [Z] in [-2^63, 2^63).
    - A byte buffer ([ColumnString::Chars], the bytes behind a [StringRef])
      is a [list byte]; a pointer into it is a [Z] position.
    - [res_data] and [res_offsets] are arrays updated in place: [resize]
      grows them, [memcpy] and [<[i:=x]>] overwrite cells. *)

From Stdlib Require Import ZArith Lia Bool List.
From Stdlib Require Import Strings.String Strings.Byte.
From stdpp Require Import base list.

Local Open Scope Z_scope.

(** ** Machine integers *)

Definition wrap64 (z : Z) : Z := z mod 2 ^ 64.

(** [static_cast<size_t>(x)] and the implicit conversion of an [Int64] to
    [size_t]. *)
Definition to_size_t (z : Z) : Z := wrap64 z.

Definition sz_add (a b : Z) : Z := wrap64 (a + b).
Definition sz_sub (a b : Z) : Z := wrap64 (a - b).
Definition sz_neg (a : Z) : Z := wrap64 (- a).

Infix "+%" := sz_add (at level 50, left associativity).
Infix "-%" := sz_sub (at level 50, left associativity).

Definition is_int64 (z : Z) : bool := (- 2 ^ 63 <=? z) && (z <? 2 ^ 63).

Abbreviation len l := (Z.of_nat (length l)).

(** ** OffsetResolver: [getValidOffset] (lines 198-216)

    input offset is 1-based, maybe negative; the result is a 0-based
    offset. *)
Definition getValidOffset (offset input_size : Z) : Z :=
  if 0 <? offset then
    if input_size +% 1 <? to_size_t offset then input_size
    else to_size_t (offset - 1)
  else
    if input_size <? sz_neg (to_size_t offset) then 0
    else input_size +% to_size_t offset.

(** ** UTF-8 helpers

    [UTF8::countCodePoints] (Common/UTF8Helpers.h) and
    [GatherUtils::UTF8StringSource::skipCodePointsForward] /
    [skipCodePointsBackward] (Functions/GatherUtils/Sources.h) are called by
    overlay.cpp but defined elsewhere. *)
Module UTF8.

Definition octet (b : byte) : Z := Z.of_N (Byte.to_N b).

(** Modelled from the spec: [UTF8::isContinuationOctet] is defined outside
    overlay.cpp.  A code point is one leading octet followed by
    continuation octets, which have the form 10xxxxxx. *)
Definition isContinuationOctet (b : byte) : bool :=
  Z.land (octet b) 192 =? 128.

(** Modelled from the spec: [UTF8::seqLength] is defined outside
    overlay.cpp.  Number of octets of the code point announced by its first
    octet: 1 for 0xxxxxxx (and for octets that cannot start a sequence),
    2 for 110xxxxx, 3 for 1110xxxx, 4 for 11110xxx. *)
Definition seqLength (first_octet : byte) : Z :=
  let c := octet first_octet in
  if (c <? 192) || (248 <=? c) then 1
  else if c <? 224 then 2
  else if c <? 240 then 3
  else 4.

(** Modelled from the spec: [UTF8::countCodePoints] is defined outside
    overlay.cpp.  Section 4.4 counts lengths "in Unicode code points, not
    bytes": one per octet that is not a continuation octet. *)
Definition countCodePoints (data : list byte) : Z :=
  len (List.filter (fun b => negb (isContinuationOctet b)) data).

(** Modelled from the spec: the forward scan of the CodePointScanner
    ([skipCodePointsForward]) is defined outside overlay.cpp.  It passes
    [size] code points at most, from octet [pos] of the slice [s], and stops
    at the end of the slice; the result is the position reached, which lies
    behind the slice when the last sequence is cut short (the caller clamps
    it).  Every round moves at least one octet ahead, so [length s] rounds
    are enough fuel. *)
Fixpoint forward (fuel : nat) (s : list byte) (pos : Z) (size : Z) : Z :=
  match fuel with
  | O => pos
  | S fuel' =>
      if (0 <? size) && (pos <? len s)
      then forward fuel' s
             (pos + seqLength (nth (Z.to_nat pos) s "000"%byte)) (size - 1)
      else pos
  end.

(** Modelled from the spec: the backward scan of the CodePointScanner
    ([skipCodePointsBackward]) is defined outside overlay.cpp.  It passes
    [size] code points at most, from the end of the slice, whose octets it
    is given in reverse, and stops at the start of the slice; a code point
    is passed once its leading octet is.  The result is the number of octets
    passed. *)
Fixpoint backward (rev_s : list byte) (size : Z) : Z :=
  match rev_s with
  | [] => 0
  | b :: rest =>
      if 0 <? size
      then 1 + backward rest (if isContinuationOctet b then size else size - 1)
      else 0
  end.

End UTF8.

(** ** Buffers *)

(** The [n] bytes of [buf] that start at position [pos]. *)
Definition slice (buf : list byte) (pos n : Z) : list byte :=
  take (Z.to_nat n) (drop (Z.to_nat pos) buf).

(** [PODArray::resize]: new cells are not initialised; [junk] stands for
    whatever they hold. *)
Definition resize {A} (junk : A) (d : list A) (n : Z) : list A :=
  take (Z.to_nat n) d ++ replicate (Z.to_nat n - length d)%nat junk.

(** [memcpySmallAllowReadWriteOverflow15 (&dst[dpos], &src[spos], n)].  The
    up to 15 bytes that the source may copy in excess land in cells that the
    following copies of the same row overwrite, or in the padding behind the
    array; they are left out.  A cell outside [dst] is not written. *)
Definition memcpy (dst : list byte) (dpos : Z) (src : list byte) (spos n : Z)
  : list byte :=
  list_inserts (Z.to_nat dpos) (slice src spos n) dst.

(** Modelled from the spec: the pointers that the two scanners return, as
    positions in [data]; only the octets in [[begin, end)] are read. *)
Definition skipCodePointsForward (data : list byte) (pos size end_ : Z) : Z :=
  let s := slice data pos (end_ - pos) in
  pos + UTF8.forward (length s) s 0 size.

(** Modelled from the spec: see [UTF8.backward]. *)
Definition skipCodePointsBackward (data : list byte) (pos size begin : Z) : Z :=
  pos - UTF8.backward (rev (slice data begin (pos - begin))) size.

(** ** Columns *)

(** [ColumnString]: the rows' bytes, each row followed by a terminator, and
    the position behind each row. *)
Record ColumnString := { chars : list byte; offsets : list Z }.

(** A string argument is a [ColumnConst] over one string or a full
    [ColumnString] (checkAndGetColumn, lines 94-95 and 106-107). *)
Inductive StringColumn :=
| StrConst (s : list byte)
| StrVector (c : ColumnString).

(** An integer argument, read through [IColumn::getInt], which widens every
    integer type to [Int64].  A per-row column has one value per row; the
    default 0 stands for a read behind it, which no loop makes. *)
Inductive IntColumn :=
| IntConst (v : Z)
| IntVector (vs : list Z).

Definition getInt (c : IntColumn) (i : nat) : Z :=
  match c with
  | IntConst v => v
  | IntVector vs => nth i vs 0
  end.

(** [column_length] is a null [ColumnPtr] when the call has three arguments;
    it is then never read. *)
Definition getIntPtr (c : option IntColumn) (i : nat) : Z :=
  match c with
  | Some c => getInt c i
  | None => 0
  end.

(** [offsets[i]], and [offsets[i - 1]], which reads 0 in front of the array
    ([PaddedPODArray] keeps a zeroed element at index -1). *)
Definition offsetAt (offs : list Z) (i : nat) : Z := nth i offs 0.

Definition prevOffset (offs : list Z) (i : nat) : Z :=
  match i with
  | O => 0
  | S j => nth j offs 0
  end.

(** ** Slice measure: [getSliceSize] (lines 218-225) *)
Definition getSliceSize (is_utf8 : bool) (data : list byte) (pos bytes : Z) : Z :=
  if is_utf8 then UTF8.countCodePoints (slice data pos bytes) else bytes.

(** ** Execution state

    [res_data] and [res_offsets] are the output column's arrays, which every
    variant receives by reference; [res_offset], [valid_offset] and
    [valid_length] are the locals that the row loops declare outside their
    body.  [calls] is ghost state: it records each evaluation of
    [getValidOffset], each resolution of [valid_length] and each run of the
    splice block, in order; nothing reads it. *)
Inductive Call := ResolveOffset | ResolveLength | Splice.

Record State := {
  res_data : list byte;
  res_offsets : list Z;
  res_offset : Z;
  valid_offset : Z;
  valid_length : Z;
  calls : list Call
}.

Definition set_valid_offset (v : Z) (st : State) : State :=
  {| res_data := res_data st; res_offsets := res_offsets st;
     res_offset := res_offset st; valid_offset := v;
     valid_length := valid_length st;
     calls := calls st ++ [ResolveOffset] |}.

Definition set_valid_length (v : Z) (st : State) : State :=
  {| res_data := res_data st; res_offsets := res_offsets st;
     res_offset := res_offset st; valid_offset := valid_offset st;
     valid_length := v;
     calls := calls st ++ [ResolveLength] |}.

Section Overlay.

(** Content of cells that [resize] and [resize_exact] leave uninitialised. *)
Variable junk : byte.
Variable junk_offset : Z.

(** ** Splicer (lines 282-335, repeated at 397-452, 515-566 and 642-696)

    The four variants repeat this block word for word except for where the
    input and the replacement live: [(in_buf, in_pos)] is [input.data] or
    [&input_data[input_offset]], [in_bytes] is [input.size] or
    [input_bytes], and likewise for the replacement. *)
Definition splice (is_utf8 : bool)
    (in_buf : list byte) (in_pos in_bytes input_size : Z)
    (rep_buf : list byte) (rep_pos rep_bytes replace_size : Z)
    (i : nat) (st : State) : State :=
  let valid_length := valid_length st in
  let prefix_size := valid_offset st in
  let suffix_size :=
    if input_size <? prefix_size +% valid_length then 0
    else input_size -% prefix_size -% valid_length in
  let '(d, ro) :=
    if negb is_utf8 then
      let new_res_size :=
        len (res_data st) +% prefix_size +% replace_size +% suffix_size +% 1 in
      let d := resize junk (res_data st) new_res_size in
      (* copy prefix before replaced region *)
      let d := memcpy d (res_offset st) in_buf in_pos prefix_size in
      let ro := res_offset st +% prefix_size in
      (* copy replace *)
      let d := memcpy d ro rep_buf rep_pos replace_size in
      let ro := ro +% replace_size in
      (* copy suffix after replaced region *)
      if suffix_size =? 0 then (d, ro)
      else (memcpy d ro in_buf (in_pos +% prefix_size +% valid_length) suffix_size,
            ro +% suffix_size)
    else
      let input_begin := in_pos in
      let input_end := in_pos +% in_bytes in
      let prefix_end :=
        skipCodePointsForward in_buf input_begin prefix_size input_end in
      let prefix_bytes :=
        if input_end <? prefix_end then in_bytes else prefix_end -% input_begin in
      let suffix_begin :=
        skipCodePointsBackward in_buf input_end suffix_size input_begin in
      let suffix_bytes := input_end -% suffix_begin in
      let new_res_size :=
        len (res_data st) +% prefix_bytes +% rep_bytes +% suffix_bytes +% 1 in
      let d := resize junk (res_data st) new_res_size in
      let d := memcpy d (res_offset st) in_buf input_begin prefix_bytes in
      let ro := res_offset st +% prefix_bytes in
      let d := memcpy d ro rep_buf rep_pos rep_bytes in
      let ro := ro +% rep_bytes in
      if suffix_bytes =? 0 then (d, ro)
      else (memcpy d ro in_buf suffix_begin suffix_bytes, ro +% suffix_bytes) in
  (* add zero terminator *)
  let d := <[Z.to_nat ro := "000"%byte]> d in
  let ro := ro +% 1 in
  {| res_data := d;
     res_offsets := <[i := ro]> (res_offsets st);
     res_offset := ro;
     valid_offset := valid_offset st;
     valid_length := valid_length;
     calls := calls st ++ [Splice] |}.

(** The start of every variant: locals before the loop. *)
Definition enter (res_data : list byte) (res_offsets : list Z) : State :=
  {| res_data := res_data; res_offsets := res_offsets; res_offset := 0;
     valid_offset := 0; valid_length := 0; calls := [] |}.

(** [for (size_t i = 0; i < rows; ++i) body] *)
Definition for_rows (rows : nat) (body : nat -> State -> State) (st : State)
  : State :=
  fold_left (fun st i => body i st) (seq 0 rows) st.

(** [valid_length = length >= 0 ? length : replace_size] *)
Definition lengthOr (length replace_size : Z) : Z :=
  if 0 <=? length then to_size_t length else replace_size.

(** ** [constantConstant] (lines 227-337) *)
Definition constantConstant_main
    (is_utf8 has_three_args offset_is_const length_is_const : bool)
    (rows : nat) (input replace : list byte)
    (column_offset : IntColumn) (column_length : option IntColumn)
    (const_offset const_length : Z)
    (res_data0 : list byte) (res_offsets0 : list Z) : State :=
  let st := enter res_data0 res_offsets0 in
  let input_size := getSliceSize is_utf8 input 0 (len input) in
  let st :=
    if offset_is_const
    then set_valid_offset (getValidOffset const_offset input_size) st
    else st in
  let replace_size := getSliceSize is_utf8 replace 0 (len replace) in
  let st :=
    if negb has_three_args && length_is_const
    then set_valid_length (to_size_t const_length) st
    else if has_three_args then set_valid_length replace_size st
    else st in
  for_rows rows (fun i st =>
    let st :=
      if negb offset_is_const
      then set_valid_offset (getValidOffset (getInt column_offset i) input_size) st
      else st in
    let st :=
      if negb has_three_args && negb length_is_const
      then set_valid_length (lengthOr (getIntPtr column_length i) replace_size) st
      else st in
    splice is_utf8 input 0 (len input) input_size
           replace 0 (len replace) replace_size i st) st.

(** The guard of lines 239-244 re-enters the template with
    [<true, offset_is_const, false>], whose own guard is false. *)
Definition constantConstant
    (is_utf8 has_three_args offset_is_const length_is_const : bool)
    (rows : nat) (input replace : list byte)
    (column_offset : IntColumn) (column_length : option IntColumn)
    (const_offset const_length : Z)
    (res_data0 : list byte) (res_offsets0 : list Z) : State :=
  if negb has_three_args && length_is_const && (const_length <? 0)
  then constantConstant_main is_utf8 true offset_is_const false
         rows input replace column_offset column_length const_offset (-1)
         res_data0 res_offsets0
  else constantConstant_main is_utf8 has_three_args offset_is_const length_is_const
         rows input replace column_offset column_length const_offset const_length
         res_data0 res_offsets0.

(** ** [vectorConstant] (lines 339-454) *)
Definition vectorConstant_main
    (is_utf8 has_three_args offset_is_const length_is_const : bool)
    (rows : nat) (input_data : list byte) (input_offsets : list Z)
    (replace : list byte)
    (column_offset : IntColumn) (column_length : option IntColumn)
    (const_offset const_length : Z)
    (res_data0 : list byte) (res_offsets0 : list Z) : State :=
  let st := enter res_data0 res_offsets0 in
  let replace_size := getSliceSize is_utf8 replace 0 (len replace) in
  let st :=
    if negb has_three_args && length_is_const
    then set_valid_length (to_size_t const_length) st
    else if has_three_args then set_valid_length replace_size st
    else st in
  for_rows rows (fun i st =>
    let input_offset := prevOffset input_offsets i in
    let input_bytes :=
      offsetAt input_offsets i -% prevOffset input_offsets i -% 1 in
    let input_size := getSliceSize is_utf8 input_data input_offset input_bytes in
    let st :=
      if offset_is_const
      then set_valid_offset (getValidOffset const_offset input_size) st
      else set_valid_offset (getValidOffset (getInt column_offset i) input_size) st in
    let st :=
      if negb has_three_args && negb length_is_const
      then set_valid_length (lengthOr (getIntPtr column_length i) replace_size) st
      else st in
    splice is_utf8 input_data input_offset input_bytes input_size
           replace 0 (len replace) replace_size i st) st.

Definition vectorConstant
    (is_utf8 has_three_args offset_is_const length_is_const : bool)
    (rows : nat) (input_data : list byte) (input_offsets : list Z)
    (replace : list byte)
    (column_offset : IntColumn) (column_length : option IntColumn)
    (const_offset const_length : Z)
    (res_data0 : list byte) (res_offsets0 : list Z) : State :=
  if negb has_three_args && length_is_const && (const_length <? 0)
  then vectorConstant_main is_utf8 true offset_is_const false
         rows input_data input_offsets replace column_offset column_length
         const_offset (-1) res_data0 res_offsets0
  else vectorConstant_main is_utf8 has_three_args offset_is_const length_is_const
         rows input_data input_offsets replace column_offset column_length
         const_offset const_length res_data0 res_offsets0.

(** ** [constantVector] (lines 456-568) *)
Definition constantVector_main
    (is_utf8 has_three_args offset_is_const length_is_const : bool)
    (rows : nat) (input : list byte)
    (replace_data : list byte) (replace_offsets : list Z)
    (column_offset : IntColumn) (column_length : option IntColumn)
    (const_offset const_length : Z)
    (res_data0 : list byte) (res_offsets0 : list Z) : State :=
  let st := enter res_data0 res_offsets0 in
  let input_size := getSliceSize is_utf8 input 0 (len input) in
  let st :=
    if offset_is_const
    then set_valid_offset (getValidOffset const_offset input_size) st
    else st in
  let st :=
    if negb has_three_args && length_is_const
    then set_valid_length (to_size_t const_length) st
    else st in
  for_rows rows (fun i st =>
    let replace_offset := prevOffset replace_offsets i in
    let replace_bytes :=
      offsetAt replace_offsets i -% prevOffset replace_offsets i -% 1 in
    let replace_size :=
      getSliceSize is_utf8 replace_data replace_offset replace_bytes in
    let st :=
      if negb offset_is_const
      then set_valid_offset (getValidOffset (getInt column_offset i) input_size) st
      else st in
    let st :=
      if has_three_args then set_valid_length replace_size st
      else if negb length_is_const
      then set_valid_length (lengthOr (getIntPtr column_length i) replace_size) st
      else st in
    splice is_utf8 input 0 (len input) input_size
           replace_data replace_offset replace_bytes replace_size i st) st.

Definition constantVector
    (is_utf8 has_three_args offset_is_const length_is_const : bool)
    (rows : nat) (input : list byte)
    (replace_data : list byte) (replace_offsets : list Z)
    (column_offset : IntColumn) (column_length : option IntColumn)
    (const_offset const_length : Z)
    (res_data0 : list byte) (res_offsets0 : list Z) : State :=
  if negb has_three_args && length_is_const && (const_length <? 0)
  then constantVector_main is_utf8 true offset_is_const false
         rows input replace_data replace_offsets column_offset column_length
         const_offset (-1) res_data0 res_offsets0
  else constantVector_main is_utf8 has_three_args offset_is_const length_is_const
         rows input replace_data replace_offsets column_offset column_length
         const_offset const_length res_data0 res_offsets0.

(** ** [vectorVector] (lines 570-698) *)
Definition vectorVector_main
    (is_utf8 has_three_args offset_is_const length_is_const : bool)
    (rows : nat) (input_data : list byte) (input_offsets : list Z)
    (replace_data : list byte) (replace_offsets : list Z)
    (column_offset : IntColumn) (column_length : option IntColumn)
    (const_offset const_length : Z)
    (res_data0 : list byte) (res_offsets0 : list Z) : State :=
  let st := enter res_data0 res_offsets0 in
  let st :=
    if negb has_three_args && length_is_const
    then set_valid_length (to_size_t const_length) st
    else st in
  for_rows rows (fun i st =>
    let input_offset := prevOffset input_offsets i in
    let input_bytes :=
      offsetAt input_offsets i -% prevOffset input_offsets i -% 1 in
    let input_size := getSliceSize is_utf8 input_data input_offset input_bytes in
    let replace_offset := prevOffset replace_offsets i in
    let replace_bytes :=
      offsetAt replace_offsets i -% prevOffset replace_offsets i -% 1 in
    let replace_size :=
      getSliceSize is_utf8 replace_data replace_offset replace_bytes in
    let st :=
      if offset_is_const
      then set_valid_offset (getValidOffset const_offset input_size) st
      else set_valid_offset (getValidOffset (getInt column_offset i) input_size) st in
    let st :=
      if has_three_args then set_valid_length replace_size st
      else if negb length_is_const
      then set_valid_length (lengthOr (getIntPtr column_length i) replace_size) st
      else st in
    splice is_utf8 input_data input_offset input_bytes input_size
           replace_data replace_offset replace_bytes replace_size i st) st.

Definition vectorVector
    (is_utf8 has_three_args offset_is_const length_is_const : bool)
    (rows : nat) (input_data : list byte) (input_offsets : list Z)
    (replace_data : list byte) (replace_offsets : list Z)
    (column_offset : IntColumn) (column_length : option IntColumn)
    (const_offset const_length : Z)
    (res_data0 : list byte) (res_offsets0 : list Z) : State :=
  if negb has_three_args && length_is_const && (const_length <? 0)
  then vectorVector_main is_utf8 true offset_is_const false
         rows input_data input_offsets replace_data replace_offsets
         column_offset column_length const_offset (-1) res_data0 res_offsets0
  else vectorVector_main is_utf8 has_three_args offset_is_const length_is_const
         rows input_data input_offsets replace_data replace_offsets
         column_offset column_length const_offset const_length
         res_data0 res_offsets0.

(** ** BatchExecutor: [executeImpl] (lines 51-194)

    [arguments] holds three or four columns, which [getReturnTypeImpl] has
    validated: two strings, the offset and, optionally, the length.
    [res_data.reserve] (lines 96-104) sets a capacity only and is left
    out. *)
Record Arguments := {
  arg_input : StringColumn;
  arg_replace : StringColumn;
  arg_offset : IntColumn;
  arg_length : option IntColumn
}.

(** What [executeImpl] returns, and the ghost record of what it ran. *)
Record Executed := { res_col : ColumnString; ran : list Call }.

Definition ColumnString_create : ColumnString := {| chars := []; offsets := [] |}.

Definition finish (st : State) : Executed :=
  {| res_col := {| chars := res_data st; offsets := res_offsets st |};
     ran := calls st |}.

(** The macro OVERLAY_EXECUTE_CASE (lines 111-159). *)
Definition OVERLAY_EXECUTE_CASE (is_utf8 : bool)
    (THREE_ARGS OFFSET_IS_CONST LENGTH_IS_CONST : bool)
    (input_rows_count : nat) (column_input column_replace : StringColumn)
    (column_offset : IntColumn) (column_length : option IntColumn)
    (offset length : Z) (res_data0 : list byte) (res_offsets0 : list Z) : State :=
  match column_input, column_replace with
  | StrConst input, StrConst replace =>
      constantConstant is_utf8 THREE_ARGS OFFSET_IS_CONST LENGTH_IS_CONST
        input_rows_count input replace column_offset column_length
        offset length res_data0 res_offsets0
  | StrConst input, StrVector column_replace_string =>
      constantVector is_utf8 THREE_ARGS OFFSET_IS_CONST LENGTH_IS_CONST
        input_rows_count input
        (chars column_replace_string) (offsets column_replace_string)
        column_offset column_length offset length res_data0 res_offsets0
  | StrVector column_input_string, StrConst replace =>
      vectorConstant is_utf8 THREE_ARGS OFFSET_IS_CONST LENGTH_IS_CONST
        input_rows_count
        (chars column_input_string) (offsets column_input_string) replace
        column_offset column_length offset length res_data0 res_offsets0
  | StrVector column_input_string, StrVector column_replace_string =>
      vectorVector is_utf8 THREE_ARGS OFFSET_IS_CONST LENGTH_IS_CONST
        input_rows_count
        (chars column_input_string) (offsets column_input_string)
        (chars column_replace_string) (offsets column_replace_string)
        column_offset column_length offset length res_data0 res_offsets0
  end.

Definition executeImpl (is_utf8 : bool) (arguments : Arguments)
    (input_rows_count : nat) : Executed :=
  if (input_rows_count =? 0)%nat
  then {| res_col := ColumnString_create; ran := [] |}
  else
    let has_three_args :=
      match arg_length arguments with None => true | Some _ => false end in
    let column_offset := arg_offset arguments in
    let column_length := arg_length arguments in
    let '(offset, offset_is_const) :=
      match column_offset with
      | IntConst v => (v, true)
      | IntVector _ => (-1, false)
      end in
    let '(length, length_is_const) :=
      match column_length with
      | Some (IntConst v) => (v, true)
      | _ => (-1, false)
      end in
    let res_data0 : list byte := [] in
    let res_offsets0 := resize junk_offset [] (Z.of_nat input_rows_count) in
    let run three oc lc :=
      OVERLAY_EXECUTE_CASE is_utf8 three oc lc input_rows_count
        (arg_input arguments) (arg_replace arguments)
        column_offset column_length offset length res_data0 res_offsets0 in
    finish
      (if has_three_args then
         if offset_is_const then run true true false
         else run true false false
       else
         if offset_is_const && length_is_const then run false true true
         else if offset_is_const && negb length_is_const then run false true false
         else if negb offset_is_const && length_is_const then run false false true
         else run false false false).

(** ** Reading a batch row by row

    The definitions below are not in overlay.cpp: they give the logical
    content of the columns, in which the theorems are stated. *)

#[global] Instance byte_eq_dec : EqDecision byte := Byte.byte_eq_dec.

(** [ColumnString::getDataAt (i)]: row [i] without its terminator, with the
    bounds the row loops compute. *)
Definition rowAt (c : ColumnString) (i : nat) : list byte :=
  slice (chars c) (prevOffset (offsets c) i)
        (offsetAt (offsets c) i - prevOffset (offsets c) i - 1).

Definition strAt (c : StringColumn) (i : nat) : list byte :=
  match c with
  | StrConst s => s
  | StrVector c => rowAt c i
  end.

Definition lengthAt (a : Arguments) (i : nat) : option Z :=
  match arg_length a with
  | Some c => Some (getInt c i)
  | None => None
  end.

(** A column laid out from its rows: each row, then one terminator. *)
Fixpoint endOffsets (base : Z) (rows : list (list byte)) : list Z :=
  match rows with
  | [] => []
  | r :: rows' => (base + len r + 1) :: endOffsets (base + len r + 1) rows'
  end.

Definition terminated (rows : list (list byte)) : list byte :=
  concat (map (fun r => r ++ ["000"%byte]) rows).

Definition fromRows (rows : list (list byte)) : ColumnString :=
  {| chars := terminated rows; offsets := endOffsets 0 rows |}.

(** The bytes of one output row for a resolved prefix length [p] and
    removal length [L], in the unit of the mode. *)
Definition spliceRow (is_utf8 : bool) (s r : list byte) (p L : Z) : list byte :=
  if is_utf8 then
    let n := UTF8.countCodePoints s in
    let suffix_size := if n <? p + L then 0 else n - p - L in
    let e := UTF8.forward (length s) s 0 p in
    let prefix_bytes := if len s <? e then len s else e in
    let suffix_bytes := UTF8.backward (rev s) suffix_size in
    take (Z.to_nat prefix_bytes) s ++ r ++ drop (Z.to_nat (len s - suffix_bytes)) s
  else
    take (Z.to_nat p) s ++ r ++ drop (Z.to_nat (p + L)) s.

Definition resolveLength (length : option Z) (replace_size : Z) : Z :=
  match length with
  | Some l => lengthOr l replace_size
  | None => replace_size
  end.

(** One call [overlay (s, r, o [, length])] (or [overlayUTF8]), on strings. *)
Definition overlayRow (is_utf8 : bool) (s r : list byte) (o : Z)
    (length : option Z) : list byte :=
  let input_size := getSliceSize is_utf8 s 0 (len s) in
  let replace_size := getSliceSize is_utf8 r 0 (len r) in
  spliceRow is_utf8 s r (getValidOffset o input_size)
            (resolveLength length replace_size).

Definition outRows (is_utf8 : bool) (a : Arguments) (n : nat)
  : list (list byte) :=
  map (fun i => overlayRow is_utf8 (strAt (arg_input a) i)
                  (strAt (arg_replace a) i) (getInt (arg_offset a) i)
                  (lengthAt a i))
      (seq 0 n).

(** ** Well-formed batches *)

(** The invariant of [ColumnString] over [n] rows: one end offset per row,
    each behind the previous one, none behind the bytes, whose number is a
    [size_t]. *)
Definition wf_ColumnString (n : nat) (c : ColumnString) : bool :=
  (length (offsets c) =? n)%nat && (len (chars c) <? 2 ^ 64) &&
  forallb (fun i => (prevOffset (offsets c) i <? offsetAt (offsets c) i)
                    && (offsetAt (offsets c) i <=? len (chars c)))
          (seq 0 n).

Definition wf_StringColumn (n : nat) (c : StringColumn) : bool :=
  match c with
  | StrConst _ => true
  | StrVector c => wf_ColumnString n c
  end.

Definition wf_IntColumn (n : nat) (c : IntColumn) : bool :=
  match c with
  | IntConst v => is_int64 v
  | IntVector vs => (length vs =? n)%nat && forallb is_int64 vs
  end.

Definition total (l : list Z) : Z := foldr Z.add 0 l.

(** Room that row [i] can take in the output, and the whole batch. *)
Definition rowBound (a : Arguments) (i : nat) : Z :=
  2 * len (strAt (arg_input a) i) + len (strAt (arg_replace a) i) + 1.

Definition batchBound (a : Arguments) (n : nat) : Z :=
  total (map (rowBound a) (seq 0 n)).

(** The columns have [n] rows, the integers are [Int64] values and the
    output is addressable by a [size_t]. *)
Definition wf_batch (a : Arguments) (n : nat) : bool :=
  wf_StringColumn n (arg_input a) && wf_StringColumn n (arg_replace a)
  && wf_IntColumn n (arg_offset a)
  && match arg_length a with Some c => wf_IntColumn n c | None => true end
  && (batchBound a n <? 2 ^ 64).

(** A constant integer column written out as a full column of [n] rows. *)
Definition expandInt (n : nat) (c : IntColumn) : IntColumn :=
  match c with
  | IntConst v => IntVector (replicate n v)
  | IntVector vs => IntVector vs
  end.

Definition expandInts (n : nat) (a : Arguments) : Arguments :=
  {| arg_input := arg_input a; arg_replace := arg_replace a;
     arg_offset := expandInt n (arg_offset a);
     arg_length := match arg_length a with
                   | Some c => Some (expandInt n c)
                   | None => None
                   end |}.

(** The call without its fourth argument. *)
Definition three_args (a : Arguments) : Arguments :=
  {| arg_input := arg_input a; arg_replace := arg_replace a;
     arg_offset := arg_offset a; arg_length := None |}.

(** Row by row, [a] and [b] hold the same strings and [P] relates their
    integers. *)
Definition related_rows (n : nat) (a b : Arguments)
    (P : list byte -> list byte -> Z -> option Z -> Z -> option Z -> bool)
  : bool :=
  forallb (fun i =>
             bool_decide (strAt (arg_input a) i = strAt (arg_input b) i)
             && bool_decide (strAt (arg_replace a) i = strAt (arg_replace b) i)
             && P (strAt (arg_input a) i) (strAt (arg_replace a) i)
                  (getInt (arg_offset a) i) (lengthAt a i)
                  (getInt (arg_offset b) i) (lengthAt b i))
          (seq 0 n).

(** [a] and [b] hold the same integers. *)
Definition same_ints (s r : list byte)
    (o : Z) (l : option Z) (o' : Z) (l' : option Z) : bool :=
  (o =? o') && bool_decide (l = l').

(** [a] has no length argument; [b] has the same offsets and, as length,
    the size of the replacement. *)
Definition default_length (is_utf8 : bool) (s r : list byte)
    (o : Z) (l : option Z) (o' : Z) (l' : option Z) : bool :=
  (o =? o') && bool_decide (l = None)
  && bool_decide (l' = Some (getSliceSize is_utf8 r 0 (len r))).

(** [a] has the offset [- k] with [0 <= k <= size s], [b] the offset
    [size s - k + 1], and the length arguments agree. *)
Definition mirrored_offset (is_utf8 : bool) (s r : list byte)
    (o : Z) (l : option Z) (o' : Z) (l' : option Z) : bool :=
  let size := getSliceSize is_utf8 s 0 (len s) in
  (o <=? 0) && (- size <=? o) && (o' =? size + o + 1) && bool_decide (l = l').

Definition ascii (s : list byte) : bool :=
  forallb (fun b => UTF8.octet b <? 128) s.

Definition ascii_rows (n : nat) (a : Arguments) : bool :=
  forallb (fun i => ascii (strAt (arg_input a) i)
                    && ascii (strAt (arg_replace a) i))
          (seq 0 n).

(** ** The scenario of section 8: [overlay ("Hello, World!", "abc", 1)] *)

Definition bytes (s : string) : list byte := list_byte_of_string s.

(** One row, each of the three arguments constant or per-row. *)
Definition scenario (input_is_const replace_is_const offset_is_const : bool)
  : Arguments :=
  {| arg_input :=
       if input_is_const then StrConst (bytes "Hello, World!")
       else StrVector (fromRows [bytes "Hello, World!"]);
     arg_replace :=
       if replace_is_const then StrConst (bytes "abc")
       else StrVector (fromRows [bytes "abc"]);
     arg_offset := if offset_is_const then IntConst 1 else IntVector [1];
     arg_length := None |}.


(** One row with every argument constant. *)
Definition call (s r : list byte) (o : Z) (length : option Z) : Arguments :=
  {| arg_input := StrConst s; arg_replace := StrConst r;
     arg_offset := IntConst o;
     arg_length := match length with
                   | Some l => Some (IntConst l)
                   | None => None
                   end |}.

Definition Muenchen : list byte :=
  bytes "M" ++ ["195"%byte; "188"%byte] ++ bytes "nchen".

(** ** Sample batches *)

Definition sample_rows : ColumnString := fromRows [bytes "Hello"; bytes "Hi"].

Definition sample (replace : StringColumn) (offset : IntColumn)
    (length : option IntColumn) : Arguments :=
  {| arg_input := StrVector sample_rows; arg_replace := replace;
     arg_offset := offset; arg_length := length |}.

(** The loop state in front of the second of two rows. *)
Definition sample_state : State :=
  {| res_data := bytes "ab" ++ ["000"%byte]; res_offsets := [3; 0];
     res_offset := 3; valid_offset := 2; valid_length := 2; calls := [] |}.


(** ** Loop invariant

    After [k] rounds of a row loop over [n] rows, the first [k] rows
    [rowf 0 .. rowf (k - 1)] are laid out in [res_data], [res_offset] is
    behind them, the first [k] cells of [res_offsets] are set, and at most
    [boundf 0 + .. + boundf (k - 1)] bytes are in use. *)
Definition RowsDone (rowf : nat -> list byte) (boundf : nat -> Z) (n k : nat)
    (st : State) : Prop :=
  res_data st = terminated (map rowf (seq 0 k))
  /\ res_offset st = len (res_data st)
  /\ res_offsets st
     = endOffsets 0 (map rowf (seq 0 k)) ++ replicate (n - k) junk_offset
  /\ len (res_data st) <= total (map boundf (seq 0 k)).

(** The offset and the length that a variant uses in row [i], by its
    template flags. *)
Definition effOffset (offset_is_const : bool) (column_offset : IntColumn)
    (const_offset : Z) (i : nat) : Z :=
  if offset_is_const then const_offset else getInt column_offset i.

Definition effLength (has_three_args length_is_const : bool)
    (column_length : option IntColumn) (const_length : Z) (i : nat) : option Z :=
  if has_three_args then None
  else Some (if length_is_const then const_length else getIntPtr column_length i).

Definition int64_opt (l : option Z) : bool :=
  match l with Some l => is_int64 l | None => true end.


(** ** Further notions used to state properties *)

(** [b] holds the strings and lengths of [a] and, as offset, the resolved
    prefix length of [a] plus one. *)
Definition canonical_offset (is_utf8 : bool) (s r : list byte)
    (o : Z) (l : option Z) (o' : Z) (l' : option Z) : bool :=
  (o' =? getValidOffset o (getSliceSize is_utf8 s 0 (len s)) + 1)
  && bool_decide (l = l').

(** The value of one call [overlay (s, r, o [, length])], as the code
    computes it on a batch of one row. *)
Definition overlay1 (is_utf8 : bool) (s r : list byte) (o : Z)
    (length : option Z) : list byte :=
  rowAt (res_col (executeImpl is_utf8 (call s r o length) 1)) 0.

(** How often a step is recorded in the ghost log. *)
Definition Call_eqb (x y : Call) : bool :=
  match x, y with
  | ResolveOffset, ResolveOffset | ResolveLength, ResolveLength
  | Splice, Splice => true
  | _, _ => false
  end.

Definition runs (c : Call) (log : list Call) : nat :=
  length (List.filter (Call_eqb c) log).

Definition isConstString (c : StringColumn) : bool :=
  match c with StrConst _ => true | StrVector _ => false end.

Definition isConstInt (c : IntColumn) : bool :=
  match c with IntConst _ => true | IntVector _ => false end.

(** Whether the removal length is settled in front of the row loop: a
    per-row length column never is; a non-negative constant always is; the
    replacement's size (no length argument, or a negative constant) is when
    the replacement is constant. *)
Definition lengthHoisted (a : Arguments) : bool :=
  match arg_length a with
  | Some (IntVector _) => false
  | Some (IntConst v) => isConstString (arg_replace a) || (0 <=? v)
  | None => isConstString (arg_replace a)
  end.

(** A code point as its octets: a leading octet that announces their
    number, then continuation octets. *)
Definition code_point (c : list byte) : bool :=
  match c with
  | [] => false
  | b :: rest =>
      negb (UTF8.isContinuationOctet b) && (UTF8.seqLength b =? len c)
      && forallb UTF8.isContinuationOctet rest
  end.


(** A batch of per-row columns, laid out from the rows' values; [ls] is the
    length column when [has_length] is set. *)
Definition batchOf (has_length : bool) (ins reps : list (list byte))
    (os ls : list Z) : Arguments :=
  {| arg_input := StrVector (fromRows ins);
     arg_replace := StrVector (fromRows reps);
     arg_offset := IntVector os;
     arg_length := if has_length then Some (IntVector ls) else None |}.


(** ** Arithmetic without wrap-around *)

Lemma wrap64_unique z k r : z = r + k * 2 ^ 64 -> 0 <= r < 2 ^ 64 -> wrap64 z = r.
Proof.
  intros -> Hr. unfold wrap64. rewrite Z_mod_plus_full. apply Z.mod_small, Hr.
Qed.

Lemma wrap64_small z : 0 <= z < 2 ^ 64 -> wrap64 z = z.
Proof. intros Hz. apply (wrap64_unique z 0); lia. Qed.

Lemma wrap64_range z : 0 <= wrap64 z < 2 ^ 64.
Proof. unfold wrap64. apply Z.mod_pos_bound. lia. Qed.

Lemma sz_add_small a b : 0 <= a + b < 2 ^ 64 -> a +% b = a + b.
Proof. apply wrap64_small. Qed.

Lemma sz_sub_small a b : 0 <= a - b < 2 ^ 64 -> a -% b = a - b.
Proof. apply wrap64_small. Qed.

Lemma to_size_t_nonneg z : 0 <= z < 2 ^ 64 -> to_size_t z = z.
Proof. apply wrap64_small. Qed.

Lemma to_size_t_neg z : - 2 ^ 64 <= z < 0 -> to_size_t z = z + 2 ^ 64.
Proof. intros Hz. apply (wrap64_unique z (-1)); lia. Qed.

Lemma is_int64_spec z : is_int64 z = true <-> - 2 ^ 63 <= z < 2 ^ 63.
Proof. unfold is_int64. rewrite andb_true_iff, Z.leb_le, Z.ltb_lt. tauto. Qed.

(** ** The offset resolver *)

Lemma getValidOffset_math offset n :
  - 2 ^ 63 <= offset < 2 ^ 63 -> 0 <= n < 2 ^ 64 - 1 ->
  getValidOffset offset n =
    if 0 <? offset then (if n + 1 <? offset then n else offset - 1)
    else (if n <? - offset then 0 else n + offset).
Proof.
  intros Ho Hn. unfold getValidOffset.
  destruct (0 <? offset) eqn:Hpos.
  - apply Z.ltb_lt in Hpos.
    rewrite (sz_add_small n 1), (to_size_t_nonneg offset),
      (to_size_t_nonneg (offset - 1)) by lia. reflexivity.
  - apply Z.ltb_ge in Hpos.
    assert (Hneg : sz_neg (to_size_t offset) = - offset).
    { unfold sz_neg. destruct (Z.eq_dec offset 0) as [-> | Hne].
      - reflexivity.
      - rewrite (to_size_t_neg offset) by lia. apply (wrap64_unique _ (-1)); lia. }
    rewrite Hneg.
    destruct (n <? - offset) eqn:Hcmp; [reflexivity |].
    apply Z.ltb_ge in Hcmp. unfold sz_add.
    destruct (Z.eq_dec offset 0) as [-> | Hne].
    + change (to_size_t 0) with 0. apply (wrap64_unique _ 0); lia.
    + rewrite (to_size_t_neg offset) by lia. apply (wrap64_unique _ 1); lia.
Qed.

Lemma getValidOffset_range offset n :
  - 2 ^ 63 <= offset < 2 ^ 63 -> 0 <= n < 2 ^ 64 - 1 ->
  0 <= getValidOffset offset n <= n.
Proof.
  intros Ho Hn. rewrite getValidOffset_math by assumption.
  destruct (0 <? offset) eqn:Hpos.
  - apply Z.ltb_lt in Hpos.
    destruct (n + 1 <? offset) eqn:Hc; [lia | apply Z.ltb_ge in Hc; lia].
  - apply Z.ltb_ge in Hpos.
    destruct (n <? - offset) eqn:Hc; [lia | apply Z.ltb_ge in Hc; lia].
Qed.

(** C2. For every [Int64] offset, the most negative one included, and every
    length [n] of a string held in memory, [getValidOffset] returns a value
    in [[0, n]]: for [offset > 0] it is [n] when [offset > n + 1] and
    [offset - 1] otherwise; for [offset <= 0] it is [0] when [- offset > n]
    and [n + offset] otherwise.  The function is total: it has no error
    result. *)
Theorem getValidOffset_resolves (offset n : Z) :
  - 2 ^ 63 <= offset < 2 ^ 63 -> 0 <= n < 2 ^ 64 - 1 ->
  0 <= getValidOffset offset n <= n /\
  (0 < offset -> n + 1 < offset -> getValidOffset offset n = n) /\
  (0 < offset -> offset <= n + 1 -> getValidOffset offset n = offset - 1) /\
  (offset <= 0 -> n < - offset -> getValidOffset offset n = 0) /\
  (offset <= 0 -> - offset <= n -> getValidOffset offset n = n + offset).
Proof.
  intros Ho Hn. split; [apply getValidOffset_range; assumption |].
  rewrite getValidOffset_math by assumption.
  repeat split; intros H1 H2.
  - apply Z.ltb_lt in H1, H2. rewrite H1, H2. reflexivity.
  - apply Z.ltb_lt in H1. apply Z.ltb_ge in H2. rewrite H1, H2. reflexivity.
  - apply Z.ltb_ge in H1. apply Z.ltb_lt in H2. rewrite H1, H2. reflexivity.
  - apply Z.ltb_ge in H1, H2. rewrite H1, H2. reflexivity.
Qed.

(** ** Buffers: slices, growth and copies *)

Ltac unwrap :=
  repeat match goal with
    | |- context [?a +% ?b] => rewrite (sz_add_small a b) by lia
    | |- context [?a -% ?b] => rewrite (sz_sub_small a b) by lia
    | |- context [to_size_t ?a] => rewrite (to_size_t_nonneg a) by lia
    end.

Lemma slice_length buf pos n :
  0 <= pos -> 0 <= n -> pos + n <= len buf -> len (slice buf pos n) = n.
Proof.
  intros Hp Hn Hle. unfold slice. rewrite length_take, length_drop. lia.
Qed.

Lemma slice_whole (s : list byte) : slice s 0 (len s) = s.
Proof.
  unfold slice. rewrite Nat2Z.id. change (Z.to_nat 0) with 0%nat.
  rewrite drop_0. apply take_ge. lia.
Qed.

Lemma slice_empty buf pos : slice buf pos 0 = [].
Proof. reflexivity. Qed.

(** A slice of a slice is a slice of the buffer. *)
Lemma slice_slice buf pos n q m :
  0 <= pos -> 0 <= q -> 0 <= m -> q + m <= n ->
  slice buf (pos + q) m = slice (slice buf pos n) q m.
Proof.
  intros Hp Hq Hm Hle. unfold slice.
  rewrite !take_drop_commute, drop_drop, take_take.
  f_equal; [lia | f_equal; lia].
Qed.

Lemma slice_take (s : list byte) n : slice s 0 n = take (Z.to_nat n) s.
Proof. unfold slice. change (Z.to_nat 0) with 0%nat. by rewrite drop_0. Qed.

Lemma slice_drop (s : list byte) q m :
  0 <= q -> len s <= q + m -> slice s q m = drop (Z.to_nat q) s.
Proof.
  intros Hq Hm. unfold slice. apply take_ge. rewrite length_drop. lia.
Qed.

Lemma resize_grow {A} (x : A) d k :
  0 <= k -> resize x d (len d + k) = d ++ replicate (Z.to_nat k) x.
Proof.
  intros Hk. unfold resize. rewrite take_ge by lia.
  f_equal. f_equal. lia.
Qed.

Lemma inserts_fill {A} (x : A) pre c (m : nat) :
  (length c <= m)%nat ->
  list_inserts (length pre) c (pre ++ replicate m x)
  = (pre ++ c) ++ replicate (m - length c) x.
Proof.
  intros Hm.
  replace (length pre) with (length pre + 0)%nat by lia.
  rewrite list_inserts_app_r.
  replace m with (length c + (m - length c))%nat at 1 by lia.
  rewrite replicate_add, list_inserts_0_r by (by rewrite length_replicate).
  by rewrite app_assoc.
Qed.

(** The three copies of a row and its terminator fill exactly the cells
    that [resize] added. *)
Lemma write_row (x : byte) pre c1 c2 c3 :
  <[length (pre ++ c1 ++ c2 ++ c3) := "000"%byte]>
    (list_inserts (length (pre ++ c1 ++ c2)) c3
       (list_inserts (length (pre ++ c1)) c2
          (list_inserts (length pre) c1
             (pre ++ replicate (length c1 + length c2 + length c3 + 1) x))))
  = pre ++ c1 ++ c2 ++ c3 ++ ["000"%byte].
Proof.
  rewrite inserts_fill by lia.
  rewrite inserts_fill by lia.
  rewrite (app_assoc pre c1 c2).
  rewrite inserts_fill by lia.
  rewrite (app_assoc pre c1 (c2 ++ c3)), (app_assoc (pre ++ c1) c2 c3).
  replace (length c1 + length c2 + length c3 + 1 - length c1 - length c2
           - length c3)%nat with 1%nat by lia.
  replace (length (((pre ++ c1) ++ c2) ++ c3))
    with (length (((pre ++ c1) ++ c2) ++ c3) + 0)%nat by lia.
  rewrite insert_app_r. simpl.
  by rewrite <- !app_assoc.
Qed.

(** ** The scanners stay inside the slice *)

Lemma seqLength_pos b : 1 <= UTF8.seqLength b.
Proof.
  unfold UTF8.seqLength.
  repeat match goal with |- context [if ?c then _ else _] => destruct c end; lia.
Qed.

Lemma forward_ge fuel s pos size : pos <= UTF8.forward fuel s pos size.
Proof.
  revert pos size. induction fuel as [| fuel IH]; intros pos size; simpl.
  - lia.
  - destruct ((0 <? size) && (pos <? len s)); [| lia].
    etransitivity; [| apply IH].
    pose proof (seqLength_pos (nth (Z.to_nat pos) s "000"%byte)). lia.
Qed.

Lemma backward_range rs size : 0 <= UTF8.backward rs size <= len rs.
Proof.
  revert size. induction rs as [| b rs IH]; intros size; simpl.
  - lia.
  - destruct (0 <? size); [| lia].
    specialize (IH (if UTF8.isContinuationOctet b then size else size - 1)).
    lia.
Qed.

Lemma countCodePoints_range s : 0 <= UTF8.countCodePoints s <= len s.
Proof.
  unfold UTF8.countCodePoints.
  pose proof (List.filter_length_le (fun b => negb (UTF8.isContinuationOctet b)) s).
  lia.
Qed.

Lemma getSliceSize_range is_utf8 buf pos bytes :
  0 <= pos -> 0 <= bytes -> pos + bytes <= len buf ->
  0 <= getSliceSize is_utf8 buf pos bytes <= bytes.
Proof.
  intros Hp Hb Hle. unfold getSliceSize. destruct is_utf8; [| lia].
  pose proof (countCodePoints_range (slice buf pos bytes)) as H.
  rewrite slice_length in H by assumption. exact H.
Qed.

(** ** The splice block appends one row *)

Lemma to_nat_len {A} (l : list A) : Z.to_nat (len l) = length l.
Proof. apply Nat2Z.id. Qed.

(** The copies of one row, before its terminator is set: the cell for the
    terminator still holds what [resize] left there. *)
Lemma copies_spec pre src1 pos1 n1 src2 pos2 n2 src3 pos3 n3 c1 c2 c3 :
  slice src1 pos1 n1 = c1 -> len c1 = n1 ->
  slice src2 pos2 n2 = c2 -> len c2 = n2 ->
  (n3 <> 0 -> slice src3 pos3 n3 = c3) -> len c3 = n3 ->
  len pre + n1 + n2 + n3 + 1 < 2 ^ 64 ->
  (if n3 =? 0
   then (memcpy
           (memcpy (resize junk pre (len pre +% n1 +% n2 +% n3 +% 1))
                   (len pre) src1 pos1 n1)
           (len pre +% n1) src2 pos2 n2,
         len pre +% n1 +% n2)
   else (memcpy
           (memcpy
              (memcpy (resize junk pre (len pre +% n1 +% n2 +% n3 +% 1))
                      (len pre) src1 pos1 n1)
              (len pre +% n1) src2 pos2 n2)
           (len pre +% n1 +% n2) src3 pos3 n3,
         len pre +% n1 +% n2 +% n3))
  = ((pre ++ c1 ++ c2 ++ c3) ++ [junk], len (pre ++ c1 ++ c2 ++ c3)).
Proof.
  intros H1 L1 H2 L2 H3 L3 Hfit. subst n1 n2 n3.
  unwrap. unfold memcpy. rewrite H1, H2.
  replace (len pre + len c1 + len c2 + len c3 + 1)
    with (len pre + (len c1 + len c2 + len c3 + 1)) by lia.
  rewrite resize_grow by lia. rewrite to_nat_len.
  rewrite inserts_fill by lia.
  replace (Z.to_nat (len pre + len c1)) with (length (pre ++ c1))
    by (rewrite length_app; lia).
  rewrite inserts_fill by lia.
  assert (Hlen : len (pre ++ c1 ++ c2 ++ c3) = len pre + len c1 + len c2 + len c3)
    by (rewrite !length_app; lia).
  rewrite Hlen. change [junk] with (replicate 1 junk).
  destruct (len c3 =? 0) eqn:Hz.
  - apply Z.eqb_eq in Hz. destruct c3; [| discriminate Hz].
    f_equal; [| simpl; lia].
    rewrite app_nil_r, !app_assoc. f_equal. f_equal. simpl. lia.
  - apply Z.eqb_neq in Hz. rewrite (H3 Hz).
    replace (Z.to_nat (len pre + len c1 + len c2)) with (length ((pre ++ c1) ++ c2))
      by (rewrite !length_app; lia).
    rewrite inserts_fill by lia.
    f_equal. rewrite !app_assoc. f_equal. f_equal. lia.
Qed.

Lemma terminator_spec pre row i offs vo vl cs :
  len (pre ++ row) + 1 < 2 ^ 64 ->
  {| res_data := <[Z.to_nat (len (pre ++ row)) := "000"%byte]> ((pre ++ row) ++ [junk]);
     res_offsets := <[i := len (pre ++ row) +% 1]> offs;
     res_offset := len (pre ++ row) +% 1;
     valid_offset := vo; valid_length := vl; calls := cs |}
  = {| res_data := pre ++ row ++ ["000"%byte];
       res_offsets := <[i := len (pre ++ row ++ ["000"%byte])]> offs;
       res_offset := len (pre ++ row ++ ["000"%byte]);
       valid_offset := vo; valid_length := vl; calls := cs |}.
Proof.
  intros Hfit. rewrite sz_add_small by lia.
  replace (len (pre ++ row ++ ["000"%byte])) with (len (pre ++ row) + 1)
    by (rewrite !length_app; simpl; lia).
  rewrite to_nat_len.
  replace (length (pre ++ row)) with (length (pre ++ row) + 0)%nat at 1 by lia.
  rewrite insert_app_r. simpl. by rewrite <- app_assoc.
Qed.

Lemma splice_spec is_utf8 in_buf in_pos in_bytes rep_buf rep_pos rep_bytes i st :
  res_offset st = len (res_data st) ->
  0 <= in_pos -> 0 <= in_bytes -> in_pos + in_bytes <= len in_buf ->
  in_pos + in_bytes < 2 ^ 64 ->
  0 <= rep_pos -> 0 <= rep_bytes -> rep_pos + rep_bytes <= len rep_buf ->
  0 <= valid_offset st <= getSliceSize is_utf8 in_buf in_pos in_bytes ->
  0 <= valid_length st -> in_bytes + valid_length st < 2 ^ 64 ->
  len (res_data st) + (if is_utf8 then 2 * in_bytes else in_bytes)
  + rep_bytes + 1 < 2 ^ 64 ->
  splice is_utf8 in_buf in_pos in_bytes
         (getSliceSize is_utf8 in_buf in_pos in_bytes)
         rep_buf rep_pos rep_bytes
         (getSliceSize is_utf8 rep_buf rep_pos rep_bytes) i st
  = let row := spliceRow is_utf8 (slice in_buf in_pos in_bytes)
                 (slice rep_buf rep_pos rep_bytes)
                 (valid_offset st) (valid_length st) in
    let d := res_data st ++ row ++ ["000"%byte] in
    {| res_data := d;
       res_offsets := <[i := len d]> (res_offsets st);
       res_offset := len d;
       valid_offset := valid_offset st;
       valid_length := valid_length st;
       calls := calls st ++ [Splice] |}.
Proof.
  intros Hro Hip Hib Hile Hilt Hrp Hrb Hrle Hvo Hvl HvlB Hfit.
  pose proof (getSliceSize_range is_utf8 in_buf in_pos in_bytes Hip Hib Hile) as Hsz.
  set (s := slice in_buf in_pos in_bytes).
  set (r := slice rep_buf rep_pos rep_bytes).
  assert (Hs : len s = in_bytes) by (apply slice_length; assumption).
  assert (Hr : len r = rep_bytes) by (apply slice_length; assumption).
  unfold splice. rewrite Hro.
  destruct is_utf8; cbn [negb getSliceSize] in *.
  - set (p := valid_offset st) in *. set (L := valid_length st) in *.
    rewrite (sz_add_small in_pos in_bytes) by lia.
    unfold skipCodePointsForward, skipCodePointsBackward.
    replace (in_pos + in_bytes - in_pos) with in_bytes by lia. fold s.
    pose proof (countCodePoints_range s) as Hn.
    set (n := UTF8.countCodePoints s) in *.
    set (suf := if n <? p +% L then 0 else n -% p -% L).
    assert (Hsuf : suf = if n <? p + L then 0 else n - p - L).
    { subst suf. rewrite (sz_add_small p L) by lia.
      destruct (n <? p + L) eqn:Hc; [reflexivity |].
      apply Z.ltb_ge in Hc. by unwrap. }
    pose proof (forward_ge (length s) s 0 p) as He.
    set (e := UTF8.forward (length s) s 0 p) in *.
    pose proof (backward_range (rev s) suf) as Hb. rewrite length_rev in Hb.
    set (b := UTF8.backward (rev s) suf) in *.
    set (pb := if in_pos + in_bytes <? in_pos + e then in_bytes
               else (in_pos + e) -% in_pos).
    assert (Hpb : pb = if len s <? e then len s else e).
    { subst pb. rewrite Hs.
      destruct (in_bytes <? e) eqn:Hc.
      - apply Z.ltb_lt in Hc.
        destruct (in_pos + in_bytes <? in_pos + e) eqn:Hc'; [reflexivity |].
        apply Z.ltb_ge in Hc'. lia.
      - apply Z.ltb_ge in Hc.
        destruct (in_pos + in_bytes <? in_pos + e) eqn:Hc'.
        + apply Z.ltb_lt in Hc'. lia.
        + unwrap. lia. }
    assert (Hpb' : 0 <= pb <= in_bytes).
    { rewrite Hpb, Hs. destruct (in_bytes <? e) eqn:Hc; [lia |].
      apply Z.ltb_ge in Hc. lia. }
    rewrite (sz_sub_small (in_pos + in_bytes) (in_pos + in_bytes - b)) by lia.
    replace (in_pos + in_bytes - (in_pos + in_bytes - b)) with b by lia.
    rewrite (copies_spec (res_data st) in_buf in_pos pb rep_buf rep_pos rep_bytes
               in_buf (in_pos + in_bytes - b) b
               (take (Z.to_nat pb) s) r (drop (Z.to_nat (len s - b)) s)).
    + unfold spliceRow. fold n e. rewrite <- Hsuf. fold b. rewrite <- Hpb.
      apply terminator_spec. rewrite !length_app, length_take, length_drop. lia.
    + replace in_pos with (in_pos + 0) at 1 by lia.
      rewrite (slice_slice _ _ in_bytes) by lia. apply slice_take.
    + rewrite length_take. lia.
    + reflexivity.
    + assumption.
    + intros _. replace (in_pos + in_bytes - b) with (in_pos + (in_bytes - b)) by lia.
      rewrite (slice_slice _ _ in_bytes) by lia. fold s. rewrite Hs.
      apply slice_drop; lia.
    + rewrite length_drop. lia.
    + lia.
  - set (p := valid_offset st) in *. set (L := valid_length st) in *.
    set (suf := if in_bytes <? p +% L then 0 else in_bytes -% p -% L).
    assert (Hsuf : 0 <= suf <= in_bytes - p /\
                   (suf <> 0 -> slice in_buf (in_pos +% p +% L) suf
                                = drop (Z.to_nat (p + L)) s) /\
                   len (drop (Z.to_nat (p + L)) s) = suf).
    { subst suf. rewrite (sz_add_small p L) by lia.
      destruct (in_bytes <? p + L) eqn:Hc.
      - apply Z.ltb_lt in Hc. rewrite length_drop. lia.
      - apply Z.ltb_ge in Hc. unwrap. rewrite length_drop.
        repeat split; try lia. intros _.
        replace (in_pos + p + L) with (in_pos + (p + L)) by lia.
        rewrite (slice_slice _ _ in_bytes) by lia.
        apply slice_drop; fold s; lia. }
    destruct Hsuf as (Hsuf1 & Hsuf2 & Hsuf3).
    rewrite (copies_spec (res_data st) in_buf in_pos p rep_buf rep_pos rep_bytes
               in_buf (in_pos +% p +% L) suf
               (take (Z.to_nat p) s) r (drop (Z.to_nat (p + L)) s)).
    + unfold spliceRow. apply terminator_spec.
      rewrite !length_app, length_take. lia.
    + replace in_pos with (in_pos + 0) at 1 by lia.
      rewrite (slice_slice _ _ in_bytes) by lia. apply slice_take.
    + rewrite length_take. lia.
    + reflexivity.
    + assumption.
    + assumption.
    + assumption.
    + lia.
Qed.

(** ** Rows and their layout *)

Lemma terminated_snoc rows r :
  terminated (rows ++ [r]) = terminated rows ++ r ++ ["000"%byte].
Proof.
  unfold terminated. rewrite map_app, concat_app. simpl. by rewrite app_nil_r.
Qed.

Lemma endOffsets_length base rows : length (endOffsets base rows) = length rows.
Proof.
  revert base. induction rows as [| r rows IH]; intros base; simpl;
    [reflexivity | by rewrite IH].
Qed.

Lemma endOffsets_snoc base rows r :
  endOffsets base (rows ++ [r])
  = endOffsets base rows ++ [base + len (terminated rows) + len r + 1].
Proof.
  revert base. induction rows as [| r' rows IH]; intros base; simpl.
  - f_equal. lia.
  - rewrite IH. f_equal. f_equal. f_equal.
    unfold terminated. simpl. rewrite !length_app. simpl. lia.
Qed.

Lemma total_snoc l x : total (l ++ [x]) = total l + x.
Proof.
  unfold total. induction l as [| y l IH]; simpl; [lia | rewrite IH; lia].
Qed.

Lemma total_seq_le (f : nat -> Z) (k n : nat) :
  (forall i, 0 <= f i) -> (k <= n)%nat ->
  total (map f (seq 0 k)) <= total (map f (seq 0 n)).
Proof.
  intros Hf Hk. induction Hk as [| m Hk IH]; [lia |].
  rewrite seq_S, map_app. change (map f [(0 + m)%nat]) with [f m].
  rewrite total_snoc. specialize (Hf m). lia.
Qed.

Lemma for_rows_ind (P : nat -> State -> Prop) body n st0 :
  P 0%nat st0 ->
  (forall i st, (i < n)%nat -> P i st -> P (S i) (body i st)) ->
  P n (for_rows n body st0).
Proof.
  unfold for_rows. intros H0 Hstep.
  induction n as [| n IH].
  - exact H0.
  - rewrite seq_S, fold_left_app. simpl. apply Hstep; [lia |].
    apply IH. intros i st Hi. apply Hstep. lia.
Qed.

Lemma RowsDone_enter rowf boundf n :
  RowsDone rowf boundf n 0 (enter [] (replicate n junk_offset)).
Proof.
  unfold RowsDone, enter. simpl. rewrite Nat.sub_0_r. repeat split; lia.
Qed.

Lemma RowsDone_set_valid_offset rowf boundf n k v st :
  RowsDone rowf boundf n k st -> RowsDone rowf boundf n k (set_valid_offset v st).
Proof. exact id. Qed.

Lemma RowsDone_set_valid_length rowf boundf n k v st :
  RowsDone rowf boundf n k st -> RowsDone rowf boundf n k (set_valid_length v st).
Proof. exact id. Qed.

Lemma getSliceSize_slice is_utf8 buf pos bytes :
  0 <= pos -> 0 <= bytes -> pos + bytes <= len buf ->
  getSliceSize is_utf8 (slice buf pos bytes) 0 (len (slice buf pos bytes))
  = getSliceSize is_utf8 buf pos bytes.
Proof.
  intros Hp Hb Hle. unfold getSliceSize. destruct is_utf8.
  - by rewrite slice_whole.
  - by apply slice_length.
Qed.

Lemma resolveLength_range lenopt rs :
  int64_opt lenopt = true -> 0 <= rs ->
  0 <= resolveLength lenopt rs /\ resolveLength lenopt rs < Z.max (2 ^ 63) (rs + 1).
Proof.
  intros Hl Hrs. destruct lenopt as [l |]; simpl in *; [| lia].
  apply is_int64_spec in Hl. unfold lengthOr.
  destruct (0 <=? l) eqn:Hc; [| lia].
  apply Z.leb_le in Hc. rewrite to_size_t_nonneg by lia. lia.
Qed.

(** ** One round of a row loop *)

Lemma row_step is_utf8 rowf boundf n i st
    in_buf in_pos in_bytes rep_buf rep_pos rep_bytes o lenopt :
  RowsDone rowf boundf n i st -> (i < n)%nat ->
  0 <= in_pos -> 0 <= in_bytes -> in_pos + in_bytes <= len in_buf ->
  in_pos + in_bytes < 2 ^ 64 ->
  0 <= rep_pos -> 0 <= rep_bytes -> rep_pos + rep_bytes <= len rep_buf ->
  is_int64 o = true -> int64_opt lenopt = true ->
  valid_offset st = getValidOffset o (getSliceSize is_utf8 in_buf in_pos in_bytes) ->
  valid_length st
  = resolveLength lenopt (getSliceSize is_utf8 rep_buf rep_pos rep_bytes) ->
  rowf i = overlayRow is_utf8 (slice in_buf in_pos in_bytes)
             (slice rep_buf rep_pos rep_bytes) o lenopt ->
  2 * in_bytes + rep_bytes + 1 <= boundf i ->
  total (map boundf (seq 0 (S i))) < 2 ^ 64 ->
  let st' := splice is_utf8 in_buf in_pos in_bytes
               (getSliceSize is_utf8 in_buf in_pos in_bytes)
               rep_buf rep_pos rep_bytes
               (getSliceSize is_utf8 rep_buf rep_pos rep_bytes) i st in
  RowsDone rowf boundf n (S i) st'
  /\ valid_offset st' = valid_offset st /\ valid_length st' = valid_length st.
Proof.
  intros (Hd & Hro & Hoffs & Hbound) Hi Hip Hib Hile Hilt Hrp Hrb Hrle Ho Hl
         Hvo Hvl Hrow Hbi Htot.
  pose proof (getSliceSize_range is_utf8 in_buf in_pos in_bytes Hip Hib Hile) as Hsi.
  pose proof (getSliceSize_range is_utf8 rep_buf rep_pos rep_bytes Hrp Hrb Hrle) as Hsr.
  rewrite seq_S, map_app in Htot.
  change (map boundf [(0 + i)%nat]) with [boundf i] in Htot.
  rewrite total_snoc in Htot.
  apply is_int64_spec in Ho.
  assert (Hsi' : 0 <= getSliceSize is_utf8 in_buf in_pos in_bytes < 2 ^ 64 - 1)
    by lia.
  pose proof (getValidOffset_range o _ Ho Hsi') as Hvo'.
  rewrite <- Hvo in Hvo'.
  pose proof (resolveLength_range lenopt _ Hl (proj1 Hsr)) as Hvl'.
  rewrite <- Hvl in Hvl'.
  intros st'. subst st'.
  rewrite splice_spec by (try assumption; try lia; destruct is_utf8; lia).
  assert (Hrow' : spliceRow is_utf8 (slice in_buf in_pos in_bytes)
                    (slice rep_buf rep_pos rep_bytes)
                    (valid_offset st) (valid_length st) = rowf i).
  { rewrite Hrow. unfold overlayRow.
    rewrite !getSliceSize_slice by assumption. by rewrite Hvo, Hvl. }
  cbv zeta. rewrite Hrow'. clear Hrow'.
  assert (Hrowlen : len (rowf i) <= 2 * in_bytes + rep_bytes).
  { rewrite Hrow. unfold overlayRow, spliceRow.
    pose proof (slice_length in_buf in_pos in_bytes Hip Hib Hile).
    pose proof (slice_length rep_buf rep_pos rep_bytes Hrp Hrb Hrle).
    destruct is_utf8; rewrite !length_app, length_take, length_drop; lia. }
  unfold RowsDone. cbn [res_data res_offset res_offsets valid_offset valid_length].
  rewrite seq_S, !map_app.
  change (map rowf [(0 + i)%nat]) with [rowf i].
  change (map boundf [(0 + i)%nat]) with [boundf i].
  rewrite terminated_snoc, endOffsets_snoc, total_snoc, <- Hd.
  repeat split.
  - rewrite Hoffs.
    rewrite insert_app_r_alt by (rewrite endOffsets_length, length_map, length_seq; lia).
    rewrite endOffsets_length, length_map, length_seq, Nat.sub_diag.
    replace (n - i)%nat with (S (n - S i)) by lia. simpl.
    rewrite <- app_assoc. simpl. f_equal. f_equal.
    rewrite !length_app. simpl. lia.
  - rewrite !length_app. simpl. lia.
Qed.

(** ** Rows of a well-formed column *)

Lemma wf_ColumnString_spec n c :
  wf_ColumnString n c = true ->
  length (offsets c) = n /\ len (chars c) < 2 ^ 64 /\
  forall i, (i < n)%nat ->
    prevOffset (offsets c) i < offsetAt (offsets c) i
    /\ offsetAt (offsets c) i <= len (chars c).
Proof.
  unfold wf_ColumnString. rewrite !andb_true_iff, Nat.eqb_eq, Z.ltb_lt.
  intros [[Hlen Hsz] Hall]. repeat split; try assumption.
  - rewrite forallb_forall in Hall. specialize (Hall i).
    rewrite andb_true_iff, Z.ltb_lt in Hall. apply Hall, in_seq. lia.
  - rewrite forallb_forall in Hall. specialize (Hall i).
    rewrite andb_true_iff, Z.leb_le in Hall. apply Hall, in_seq. lia.
Qed.

Lemma prevOffset_nonneg n c i :
  wf_ColumnString n c = true -> (i <= n)%nat -> 0 <= prevOffset (offsets c) i.
Proof.
  intros Hwf Hi. apply wf_ColumnString_spec in Hwf as (_ & _ & Hall).
  induction i as [| i IH]; simpl; [lia |].
  specialize (Hall i ltac:(lia)). unfold offsetAt in Hall.
  specialize (IH ltac:(lia)). lia.
Qed.

(** The bounds that the row loops compute for row [i] of a column. *)
Lemma vector_view n c i :
  wf_ColumnString n c = true -> (i < n)%nat ->
  let pos := prevOffset (offsets c) i in
  let bytes := offsetAt (offsets c) i -% prevOffset (offsets c) i -% 1 in
  0 <= pos /\ 0 <= bytes /\ pos + bytes <= len (chars c)
  /\ pos + bytes < 2 ^ 64
  /\ slice (chars c) pos bytes = rowAt c i
  /\ len (rowAt c i) = bytes.
Proof.
  intros Hwf Hi.
  pose proof (prevOffset_nonneg n c i Hwf ltac:(lia)) as Hp.
  apply wf_ColumnString_spec in Hwf as (_ & Hsz & Hall).
  destruct (Hall i Hi) as [Hlt Hle]. cbv zeta.
  rewrite (sz_sub_small (offsetAt _ _)) by lia.
  rewrite sz_sub_small by lia.
  unfold rowAt. rewrite slice_length by lia.
  repeat split; lia.
Qed.

Lemma const_view (s : list byte) :
  len s < 2 ^ 64 ->
  0 <= 0 /\ 0 <= len s /\ 0 + len s <= len s /\ 0 + len s < 2 ^ 64
  /\ slice s 0 (len s) = s /\ len s = len s.
Proof. intros Hs. rewrite slice_whole. repeat split; lia. Qed.

(** ** The four variants lay out the rows *)

Lemma resolveLength_const h3 lc cl clen i rs :
  (h3 = false -> lc = true -> 0 <= clen < 2 ^ 63) ->
  (h3 || lc) = true ->
  resolveLength (effLength h3 lc cl clen i) rs
  = if h3 then rs else to_size_t clen.
Proof.
  intros Hc Hh. unfold effLength. destruct h3; [reflexivity |].
  simpl in Hh. subst lc. specialize (Hc eq_refl eq_refl).
  simpl. unfold lengthOr.
  destruct (0 <=? clen) eqn:E; [reflexivity | apply Z.leb_gt in E; lia].
Qed.

Lemma total_const_nonneg (f : nat -> Z) n :
  (forall i, 0 <= f i) -> 0 <= total (map f (seq 0 n)).
Proof.
  intros Hf. pose proof (total_seq_le f 0 n Hf ltac:(lia)). simpl in H. exact H.
Qed.

Lemma constantConstant_main_rows is_utf8 h3 oc lc n input replace co cl coff clen :
  let boundf := fun _ : nat => 2 * len input + len replace + 1 in
  let rowf := fun i => overlayRow is_utf8 input replace
                         (effOffset oc co coff i) (effLength h3 lc cl clen i) in
  (forall i, (i < n)%nat ->
     is_int64 (effOffset oc co coff i) = true
     /\ int64_opt (effLength h3 lc cl clen i) = true) ->
  (h3 = false -> lc = true -> 0 <= clen < 2 ^ 63) ->
  total (map boundf (seq 0 n)) < 2 ^ 64 ->
  RowsDone rowf boundf n n
    (constantConstant_main is_utf8 h3 oc lc n input replace co cl coff clen
       [] (replicate n junk_offset)).
Proof.
  intros boundf rowf Hint Hc Hfit. unfold constantConstant_main.
  set (input_size := getSliceSize is_utf8 input 0 (len input)).
  set (replace_size := getSliceSize is_utf8 replace 0 (len replace)).
  assert (Hb0 : forall i, 0 <= boundf i) by (intros i; unfold boundf; lia).
  match goal with |- RowsDone _ _ _ _ (for_rows _ ?body ?st0) =>
    enough (RowsDone rowf boundf n n (for_rows n body st0)
            /\ (oc = true ->
                valid_offset (for_rows n body st0) = getValidOffset coff input_size)
            /\ ((h3 || lc) = true ->
                valid_length (for_rows n body st0)
                = if h3 then replace_size else to_size_t clen))
      as HP by apply HP;
    apply (for_rows_ind
             (fun i st => RowsDone rowf boundf n i st
                /\ (oc = true -> valid_offset st = getValidOffset coff input_size)
                /\ ((h3 || lc) = true ->
                    valid_length st = if h3 then replace_size else to_size_t clen)))
  end.
  - destruct h3, oc, lc; simpl;
      (split; [apply RowsDone_enter | split; intros; (reflexivity || discriminate)]).
  - intros i st Hi (HR & HO & HL). subst input_size replace_size.
    destruct (Hint i Hi) as [Hio Hil].
    pose proof (total_seq_le boundf (S i) n Hb0 ltac:(lia)) as Hle.
    pose proof (total_seq_le boundf 1 n Hb0 ltac:(lia)) as Hle1.
    simpl in Hle1.
    destruct (const_view input ltac:(unfold boundf in *; lia))
      as (? & ? & ? & ? & Hsi & _).
    destruct (const_view replace ltac:(unfold boundf in *; lia))
      as (? & ? & ? & _ & Hsr & _).
    match goal with |- context [splice _ _ _ _ _ _ _ _ _ _ ?st2] =>
      destruct (row_step is_utf8 rowf boundf n i st2
                  input 0 (len input) replace 0 (len replace)
                  (effOffset oc co coff i) (effLength h3 lc cl clen i))
        as (HR' & HO' & HL')
    end; try assumption; try lia.
    + destruct oc, h3, lc; simpl; assumption.
    + destruct oc, h3, lc; simpl; first [reflexivity | by apply HO].
    + destruct (h3 || lc) eqn:Hh.
      * rewrite resolveLength_const by assumption.
        destruct oc, h3, lc; simpl in *; first [discriminate | by apply HL].
      * destruct h3, lc; try discriminate. destruct oc; reflexivity.
    + subst rowf. cbv beta. by rewrite Hsi, Hsr.
    + unfold boundf. lia.
    + split; [exact HR' |]. split.
      * intros ->. rewrite HO'. destruct h3, lc; simpl; by apply HO.
      * intros Hh. rewrite HL'.
        destruct oc, h3, lc; simpl in *; first [discriminate | by apply HL].
Qed.

Lemma vectorConstant_main_rows is_utf8 h3 oc lc n ci replace co cl coff clen :
  let boundf := fun i : nat => 2 * len (rowAt ci i) + len replace + 1 in
  let rowf := fun i => overlayRow is_utf8 (rowAt ci i) replace
                         (effOffset oc co coff i) (effLength h3 lc cl clen i) in
  wf_ColumnString n ci = true ->
  (forall i, (i < n)%nat ->
     is_int64 (effOffset oc co coff i) = true
     /\ int64_opt (effLength h3 lc cl clen i) = true) ->
  (h3 = false -> lc = true -> 0 <= clen < 2 ^ 63) ->
  total (map boundf (seq 0 n)) < 2 ^ 64 ->
  RowsDone rowf boundf n n
    (vectorConstant_main is_utf8 h3 oc lc n (chars ci) (offsets ci) replace
       co cl coff clen [] (replicate n junk_offset)).
Proof.
  intros boundf rowf Hwf Hint Hc Hfit. unfold vectorConstant_main.
  assert (Hb0 : forall i, 0 <= boundf i) by (intros i; unfold boundf; lia).
  match goal with |- RowsDone _ _ _ _ (for_rows _ ?body ?st0) =>
    enough (RowsDone rowf boundf n n (for_rows n body st0)
            /\ ((h3 || lc) = true ->
                valid_length (for_rows n body st0)
                = if h3 then getSliceSize is_utf8 replace 0 (len replace)
                  else to_size_t clen))
      as HP by apply HP;
    apply (for_rows_ind
             (fun i st => RowsDone rowf boundf n i st
                /\ ((h3 || lc) = true ->
                    valid_length st
                    = if h3 then getSliceSize is_utf8 replace 0 (len replace)
                      else to_size_t clen)))
  end.
  - destruct h3, lc; simpl;
      (split; [apply RowsDone_enter | intros; (reflexivity || discriminate)]).
  - intros i st Hi (HR & HL).
    destruct (Hint i Hi) as [Hio Hil].
    pose proof (total_seq_le boundf (S i) n Hb0 ltac:(lia)) as Hle.
    destruct (vector_view n ci i Hwf Hi) as (? & ? & ? & ? & Hsi & Hli).
    assert (Hbi : 0 <= boundf i <= total (map boundf (seq 0 (S i)))).
    { rewrite seq_S, map_app. change (map boundf [(0 + i)%nat]) with [boundf i].
      rewrite total_snoc. pose proof (total_const_nonneg boundf i Hb0).
      specialize (Hb0 i). lia. }
    destruct (const_view replace ltac:(unfold boundf in *; lia))
      as (? & ? & ? & _ & Hsr & _).
    match goal with |- context [splice _ _ _ _ _ _ _ _ _ _ ?st2] =>
      destruct (row_step is_utf8 rowf boundf n i st2
                  (chars ci) (prevOffset (offsets ci) i)
                  (offsetAt (offsets ci) i -% prevOffset (offsets ci) i -% 1)
                  replace 0 (len replace)
                  (effOffset oc co coff i) (effLength h3 lc cl clen i))
        as (HR' & HO' & HL')
    end; try assumption; try lia.
    + destruct oc, h3, lc; simpl; assumption.
    + destruct oc, h3, lc; reflexivity.
    + destruct (h3 || lc) eqn:Hh.
      * rewrite resolveLength_const by assumption.
        destruct oc, h3, lc; simpl in *; first [discriminate | by apply HL].
      * destruct h3, lc; try discriminate. destruct oc; reflexivity.
    + subst rowf. cbv beta. by rewrite Hsi, Hsr.
    + unfold boundf. lia.
    + split; [exact HR' |].
      intros Hh. rewrite HL'.
      destruct oc, h3, lc; simpl in *; first [discriminate | by apply HL].
Qed.

Lemma resolveLength_hoisted h3 lc cl clen i rs :
  (h3 = false -> lc = true -> 0 <= clen < 2 ^ 63) ->
  negb h3 && lc = true ->
  resolveLength (effLength h3 lc cl clen i) rs = to_size_t clen.
Proof.
  intros Hc Hh. destruct h3, lc; try discriminate.
  specialize (Hc eq_refl eq_refl). simpl. unfold lengthOr.
  destruct (0 <=? clen) eqn:E; [reflexivity | apply Z.leb_gt in E; lia].
Qed.

Lemma constantVector_main_rows is_utf8 h3 oc lc n input cr co cl coff clen :
  let boundf := fun i : nat => 2 * len input + len (rowAt cr i) + 1 in
  let rowf := fun i => overlayRow is_utf8 input (rowAt cr i)
                         (effOffset oc co coff i) (effLength h3 lc cl clen i) in
  wf_ColumnString n cr = true ->
  (forall i, (i < n)%nat ->
     is_int64 (effOffset oc co coff i) = true
     /\ int64_opt (effLength h3 lc cl clen i) = true) ->
  (h3 = false -> lc = true -> 0 <= clen < 2 ^ 63) ->
  total (map boundf (seq 0 n)) < 2 ^ 64 ->
  RowsDone rowf boundf n n
    (constantVector_main is_utf8 h3 oc lc n input (chars cr) (offsets cr)
       co cl coff clen [] (replicate n junk_offset)).
Proof.
  intros boundf rowf Hwf Hint Hc Hfit. unfold constantVector_main.
  assert (Hb0 : forall i, 0 <= boundf i) by (intros i; unfold boundf; lia).
  match goal with |- RowsDone _ _ _ _ (for_rows _ ?body ?st0) =>
    enough (RowsDone rowf boundf n n (for_rows n body st0)
            /\ (oc = true ->
                valid_offset (for_rows n body st0)
                = getValidOffset coff (getSliceSize is_utf8 input 0 (len input)))
            /\ (negb h3 && lc = true ->
                valid_length (for_rows n body st0) = to_size_t clen))
      as HP by apply HP;
    apply (for_rows_ind
             (fun i st => RowsDone rowf boundf n i st
                /\ (oc = true ->
                    valid_offset st
                    = getValidOffset coff (getSliceSize is_utf8 input 0 (len input)))
                /\ (negb h3 && lc = true -> valid_length st = to_size_t clen)))
  end.
  - destruct h3, oc, lc; simpl;
      (split; [apply RowsDone_enter | split; intros; (reflexivity || discriminate)]).
  - intros i st Hi (HR & HO & HL).
    destruct (Hint i Hi) as [Hio Hil].
    pose proof (total_seq_le boundf (S i) n Hb0 ltac:(lia)) as Hle.
    destruct (vector_view n cr i Hwf Hi) as (? & ? & ? & ? & Hsr & Hlr).
    assert (Hbi : 0 <= boundf i <= total (map boundf (seq 0 (S i)))).
    { rewrite seq_S, map_app. change (map boundf [(0 + i)%nat]) with [boundf i].
      rewrite total_snoc. pose proof (total_const_nonneg boundf i Hb0).
      specialize (Hb0 i). lia. }
    destruct (const_view input ltac:(unfold boundf in *; lia))
      as (? & ? & ? & ? & Hsi & _).
    match goal with |- context [splice _ _ _ _ _ _ _ _ _ _ ?st2] =>
      destruct (row_step is_utf8 rowf boundf n i st2
                  input 0 (len input)
                  (chars cr) (prevOffset (offsets cr) i)
                  (offsetAt (offsets cr) i -% prevOffset (offsets cr) i -% 1)
                  (effOffset oc co coff i) (effLength h3 lc cl clen i))
        as (HR' & HO' & HL')
    end; try assumption; try lia.
    + destruct oc, h3, lc; simpl; assumption.
    + destruct oc, h3, lc; simpl; first [reflexivity | by apply HO].
    + destruct (negb h3 && lc) eqn:Hh.
      * rewrite resolveLength_hoisted by assumption.
        destruct oc, h3, lc; simpl in *; first [discriminate | by apply HL].
      * destruct oc, h3, lc; try discriminate; reflexivity.
    + subst rowf. cbv beta. by rewrite Hsi, Hsr.
    + unfold boundf. lia.
    + split; [exact HR' |]. split.
      * intros ->. rewrite HO'. destruct h3, lc; simpl; by apply HO.
      * intros Hh. rewrite HL'.
        destruct oc, h3, lc; simpl in *; first [discriminate | by apply HL].
Qed.

Lemma vectorVector_main_rows is_utf8 h3 oc lc n ci cr co cl coff clen :
  let boundf := fun i : nat => 2 * len (rowAt ci i) + len (rowAt cr i) + 1 in
  let rowf := fun i => overlayRow is_utf8 (rowAt ci i) (rowAt cr i)
                         (effOffset oc co coff i) (effLength h3 lc cl clen i) in
  wf_ColumnString n ci = true -> wf_ColumnString n cr = true ->
  (forall i, (i < n)%nat ->
     is_int64 (effOffset oc co coff i) = true
     /\ int64_opt (effLength h3 lc cl clen i) = true) ->
  (h3 = false -> lc = true -> 0 <= clen < 2 ^ 63) ->
  total (map boundf (seq 0 n)) < 2 ^ 64 ->
  RowsDone rowf boundf n n
    (vectorVector_main is_utf8 h3 oc lc n (chars ci) (offsets ci)
       (chars cr) (offsets cr) co cl coff clen [] (replicate n junk_offset)).
Proof.
  intros boundf rowf Hwfi Hwfr Hint Hc Hfit. unfold vectorVector_main.
  assert (Hb0 : forall i, 0 <= boundf i) by (intros i; unfold boundf; lia).
  match goal with |- RowsDone _ _ _ _ (for_rows _ ?body ?st0) =>
    enough (RowsDone rowf boundf n n (for_rows n body st0)
            /\ (negb h3 && lc = true ->
                valid_length (for_rows n body st0) = to_size_t clen))
      as HP by apply HP;
    apply (for_rows_ind
             (fun i st => RowsDone rowf boundf n i st
                /\ (negb h3 && lc = true -> valid_length st = to_size_t clen)))
  end.
  - destruct h3, lc; simpl;
      (split; [apply RowsDone_enter | intros; (reflexivity || discriminate)]).
  - intros i st Hi (HR & HL).
    destruct (Hint i Hi) as [Hio Hil].
    pose proof (total_seq_le boundf (S i) n Hb0 ltac:(lia)) as Hle.
    destruct (vector_view n ci i Hwfi Hi) as (? & ? & ? & ? & Hsi & Hli).
    destruct (vector_view n cr i Hwfr Hi) as (? & ? & ? & ? & Hsr & Hlr).
    assert (Hbi : 0 <= boundf i <= total (map boundf (seq 0 (S i)))).
    { rewrite seq_S, map_app. change (map boundf [(0 + i)%nat]) with [boundf i].
      rewrite total_snoc. pose proof (total_const_nonneg boundf i Hb0).
      specialize (Hb0 i). lia. }
    match goal with |- context [splice _ _ _ _ _ _ _ _ _ _ ?st2] =>
      destruct (row_step is_utf8 rowf boundf n i st2
                  (chars ci) (prevOffset (offsets ci) i)
                  (offsetAt (offsets ci) i -% prevOffset (offsets ci) i -% 1)
                  (chars cr) (prevOffset (offsets cr) i)
                  (offsetAt (offsets cr) i -% prevOffset (offsets cr) i -% 1)
                  (effOffset oc co coff i) (effLength h3 lc cl clen i))
        as (HR' & HO' & HL')
    end; try assumption; try lia.
    + destruct oc, h3, lc; simpl; assumption.
    + destruct oc, h3, lc; reflexivity.
    + destruct (negb h3 && lc) eqn:Hh.
      * rewrite resolveLength_hoisted by assumption.
        destruct oc, h3, lc; simpl in *; first [discriminate | by apply HL].
      * destruct oc, h3, lc; try discriminate; reflexivity.
    + subst rowf. cbv beta. by rewrite Hsi, Hsr.
    + unfold boundf. lia.
    + split; [exact HR' |].
      intros Hh. rewrite HL'.
      destruct oc, h3, lc; simpl in *; first [discriminate | by apply HL].
Qed.

(** ** The dispatcher *)

Lemma resize_nil {A} (x : A) (n : nat) : resize x [] (Z.of_nat n) = replicate n x.
Proof. unfold resize. rewrite take_nil, Nat2Z.id. simpl. f_equal. lia. Qed.

Lemma wf_IntColumn_spec n c i :
  wf_IntColumn n c = true -> (i < n)%nat -> is_int64 (getInt c i) = true.
Proof.
  destruct c as [v | vs]; simpl; [intros H _; exact H |].
  rewrite andb_true_iff, Nat.eqb_eq, forallb_forall. intros [Hlen Hall] Hi.
  apply Hall, nth_In. lia.
Qed.

Lemma overlayRow_negative is_utf8 s r o l :
  l < 0 -> overlayRow is_utf8 s r o (Some l) = overlayRow is_utf8 s r o None.
Proof.
  intros Hl. unfold overlayRow, resolveLength, lengthOr.
  destruct (0 <=? l) eqn:E; [apply Z.leb_le in E; lia | reflexivity].
Qed.

Lemma finish_rows is_utf8 a n rowf boundf st :
  RowsDone rowf boundf n n st ->
  (forall i, (i < n)%nat ->
     rowf i = overlayRow is_utf8 (strAt (arg_input a) i) (strAt (arg_replace a) i)
                (getInt (arg_offset a) i) (lengthAt a i)) ->
  res_col (finish st) = fromRows (outRows is_utf8 a n).
Proof.
  intros (Hd & _ & Hoffs & _) Hrow. unfold finish, fromRows, outRows. simpl.
  rewrite Hd, Hoffs, Nat.sub_diag. simpl. rewrite app_nil_r.
  assert (Hmap : map rowf (seq 0 n)
                 = map (fun i => overlayRow is_utf8 (strAt (arg_input a) i)
                                   (strAt (arg_replace a) i)
                                   (getInt (arg_offset a) i) (lengthAt a i))
                       (seq 0 n)).
  { apply map_ext_in. intros i Hi. apply Hrow. apply in_seq in Hi. lia. }
  by rewrite Hmap.
Qed.

Lemma wf_batch_spec a n :
  wf_batch a n = true ->
  wf_StringColumn n (arg_input a) = true
  /\ wf_StringColumn n (arg_replace a) = true
  /\ (forall i, (i < n)%nat ->
        is_int64 (getInt (arg_offset a) i) = true
        /\ int64_opt (lengthAt a i) = true)
  /\ batchBound a n < 2 ^ 64.
Proof.
  unfold wf_batch. rewrite !andb_true_iff, Z.ltb_lt.
  intros [[[[Hi Hr] Ho] Hl] Hb]. repeat split; try assumption.
  - by apply (wf_IntColumn_spec n).
  - unfold lengthAt. destruct (arg_length a) as [c |]; [| reflexivity].
    simpl. by apply (wf_IntColumn_spec n).
Qed.

(** Every dispatch target lays out the rows of the batch. *)
Lemma executeImpl_rows is_utf8 a n :
  wf_batch a n = true ->
  res_col (executeImpl is_utf8 a n) = fromRows (outRows is_utf8 a n).
Proof.
  intros Hwf. unfold executeImpl.
  destruct n as [| m]; [reflexivity |]. cbn [Nat.eqb]. set (n := S m) in *.
  rewrite resize_nil.
  apply wf_batch_spec in Hwf as (Hwi & Hwr & Hint & Hb).
  unfold batchBound, rowBound in Hb.
  destruct a as [cin crep co cl]. cbn [arg_input arg_replace arg_offset arg_length] in *.
  unfold lengthAt in Hint. cbn [arg_length arg_offset] in Hint.
  destruct co as [vo | vos], cl as [[vl | vls] |], cin as [s | ci], crep as [r | cr];
    cbn [negb andb OVERLAY_EXECUTE_CASE];
    unfold constantConstant, constantVector, vectorConstant, vectorVector;
    cbn [negb andb].
  all: try (destruct (vl <? 0) eqn:Hneg;
            [apply Z.ltb_lt in Hneg | apply Z.ltb_ge in Hneg]).
  all: eapply finish_rows;
    [ lazymatch goal with
      | |- RowsDone _ _ _ _ (constantConstant_main _ _ _ _ _ _ _ _ _ _ _ _ _) =>
          apply constantConstant_main_rows
      | |- RowsDone _ _ _ _ (constantVector_main _ _ _ _ _ _ _ _ _ _ _ _ _ _) =>
          apply constantVector_main_rows
      | |- RowsDone _ _ _ _ (vectorConstant_main _ _ _ _ _ _ _ _ _ _ _ _ _ _) =>
          apply vectorConstant_main_rows
      | |- RowsDone _ _ _ _ (vectorVector_main _ _ _ _ _ _ _ _ _ _ _ _ _ _ _) =>
          apply vectorVector_main_rows
      end;
      first [ assumption
            | exact Hb
            | intros i Hi; destruct (Hint i Hi) as [Hio Hil];
              split; first [exact Hio | exact Hil | reflexivity]
            | intros Hh3 Hlc;
              first [ discriminate Hh3 | discriminate Hlc
                    | destruct (Hint 0%nat ltac:(unfold n; lia)) as [_ Hil];
                      cbn [int64_opt getInt] in Hil;
                      apply is_int64_spec in Hil; lia ] ]
    | intros i Hi; unfold lengthAt;
      cbn [effOffset effLength strAt getInt getIntPtr arg_input arg_replace
           arg_offset arg_length];
      first [reflexivity | symmetry; apply overlayRow_negative; assumption] ].
Qed.

(** ** Columns laid out from rows *)

Lemma terminated_app l k : terminated (l ++ k) = terminated l ++ terminated k.
Proof. unfold terminated. by rewrite map_app, concat_app. Qed.

Lemma endOffsets_app base l k :
  endOffsets base (l ++ k)
  = endOffsets base l ++ endOffsets (base + len (terminated l)) k.
Proof.
  revert base. induction l as [| r l IH]; intros base; simpl.
  - f_equal. lia.
  - rewrite IH. f_equal. f_equal. f_equal.
    unfold terminated. simpl. rewrite !length_app. simpl. lia.
Qed.

Lemma prevOffset_endOffsets l rest :
  prevOffset (endOffsets 0 l ++ rest) (length l) = len (terminated l).
Proof.
  induction l as [| r l _] using rev_ind; [reflexivity |].
  rewrite length_app, Nat.add_comm. simpl.
  rewrite endOffsets_snoc, <- app_assoc.
  rewrite app_nth2 by (rewrite endOffsets_length; lia).
  rewrite endOffsets_length, Nat.sub_diag. simpl.
  rewrite terminated_snoc, !length_app. simpl. lia.
Qed.

(** Row [length l1] of the column laid out from [l1 ++ r :: l2]. *)
Lemma fromRows_row l1 r l2 :
  let c := fromRows (l1 ++ r :: l2) in
  let i := length l1 in
  prevOffset (offsets c) i = len (terminated l1)
  /\ offsetAt (offsets c) i = len (terminated l1) + len r + 1
  /\ rowAt c i = r
  /\ chars c !! Z.to_nat (offsetAt (offsets c) i - 1) = Some "000"%byte.
Proof.
  cbv zeta.
  assert (Hp : prevOffset (offsets (fromRows (l1 ++ r :: l2))) (length l1)
               = len (terminated l1)).
  { unfold fromRows. cbn [offsets]. rewrite endOffsets_app.
    apply prevOffset_endOffsets. }
  assert (Ho : offsetAt (offsets (fromRows (l1 ++ r :: l2))) (length l1)
               = len (terminated l1) + len r + 1).
  { unfold fromRows, offsetAt. cbn [offsets]. rewrite endOffsets_app.
    rewrite app_nth2 by (rewrite endOffsets_length; lia).
    rewrite endOffsets_length, Nat.sub_diag. simpl. lia. }
  assert (Hc : chars (fromRows (l1 ++ r :: l2))
               = terminated l1 ++ r ++ "000"%byte :: terminated l2).
  { unfold fromRows. cbn [chars]. rewrite terminated_app.
    unfold terminated at 2. simpl. by rewrite <- app_assoc. }
  repeat split; try assumption.
  - unfold rowAt. rewrite Hp, Ho, Hc. unfold slice.
    rewrite to_nat_len, drop_app_length.
    replace (len (terminated l1) + len r + 1 - len (terminated l1) - 1)
      with (len r) by lia.
    rewrite to_nat_len. apply take_app_length.
  - rewrite Ho, Hc.
    replace (Z.to_nat (len (terminated l1) + len r + 1 - 1))
      with (length (terminated l1 ++ r)) by (rewrite length_app; lia).
    rewrite app_assoc. apply list_lookup_middle. reflexivity.
Qed.

Lemma split_at {A} (l : list A) (d : A) i :
  (i < length l)%nat ->
  l = take i l ++ nth i l d :: drop (S i) l /\ length (take i l) = i.
Proof.
  intros Hi. split; [| rewrite length_take; lia].
  symmetry. apply take_drop_middle.
  destruct (nth_lookup_or_length l i d) as [H | H]; [exact H | lia].
Qed.

Lemma fromRows_spec rows i :
  (i < length rows)%nat ->
  let c := fromRows rows in
  prevOffset (offsets c) i < offsetAt (offsets c) i
  /\ 0 <= prevOffset (offsets c) i
  /\ offsetAt (offsets c) i <= len (chars c)
  /\ rowAt c i = nth i rows []
  /\ chars c !! Z.to_nat (offsetAt (offsets c) i - 1) = Some "000"%byte.
Proof.
  intros Hi. destruct (split_at rows [] i Hi) as [Hsplit Hlen].
  remember (take i rows) as l1 eqn:E1.
  remember (nth i rows []) as r eqn:E2.
  remember (drop (S i) rows) as l2 eqn:E3.
  clear E1 E2 E3 Hi. subst rows i. cbv zeta.
  destruct (fromRows_row l1 r l2) as (Hp & Ho & Hr & Ht).
  rewrite Hp, Ho in *. repeat split; try lia; try assumption.
  unfold fromRows. cbn [chars]. rewrite terminated_app.
  unfold terminated at 3. simpl. rewrite !length_app. simpl. lia.
Qed.

Lemma outRows_length is_utf8 a n : length (outRows is_utf8 a n) = n.
Proof. unfold outRows. by rewrite length_map, length_seq. Qed.

Lemma outRows_nth is_utf8 a n i :
  (i < n)%nat ->
  nth i (outRows is_utf8 a n) []
  = overlayRow is_utf8 (strAt (arg_input a) i) (strAt (arg_replace a) i)
      (getInt (arg_offset a) i) (lengthAt a i).
Proof.
  intros Hi. unfold outRows.
  rewrite (nth_indep _ [] (overlayRow is_utf8 (strAt (arg_input a) 0)
             (strAt (arg_replace a) 0) (getInt (arg_offset a) 0) (lengthAt a 0)))
    by (by rewrite length_map, length_seq).
  rewrite (map_nth (fun i => overlayRow is_utf8 (strAt (arg_input a) i)
             (strAt (arg_replace a) i) (getInt (arg_offset a) i) (lengthAt a i))).
  by rewrite seq_nth.
Qed.

(** Batches whose rows resolve to the same calls give the same column. *)
Lemma outRows_ext is_utf8 is_utf8' a b n :
  (forall i, (i < n)%nat ->
     overlayRow is_utf8 (strAt (arg_input a) i) (strAt (arg_replace a) i)
       (getInt (arg_offset a) i) (lengthAt a i)
     = overlayRow is_utf8' (strAt (arg_input b) i) (strAt (arg_replace b) i)
         (getInt (arg_offset b) i) (lengthAt b i)) ->
  outRows is_utf8 a n = outRows is_utf8' b n.
Proof.
  intros H. unfold outRows. apply map_ext_in. intros i Hi.
  apply H. apply in_seq in Hi. lia.
Qed.

(** ** Properties of the batch *)

Lemma rowBound_le a n i :
  (i < n)%nat -> 0 < rowBound a i <= batchBound a n.
Proof.
  intros Hi. unfold batchBound.
  assert (Hb0 : forall j, 0 <= rowBound a j) by (intros j; unfold rowBound; lia).
  pose proof (total_seq_le (rowBound a) (S i) n Hb0 ltac:(lia)) as Hle.
  rewrite seq_S, map_app in Hle.
  change (map (rowBound a) [(0 + i)%nat]) with [rowBound a i] in Hle.
  rewrite total_snoc in Hle.
  pose proof (total_const_nonneg (rowBound a) i Hb0).
  unfold rowBound in *. lia.
Qed.

Lemma related_rows_spec n a b P i :
  related_rows n a b P = true -> (i < n)%nat ->
  strAt (arg_input a) i = strAt (arg_input b) i
  /\ strAt (arg_replace a) i = strAt (arg_replace b) i
  /\ P (strAt (arg_input a) i) (strAt (arg_replace a) i)
       (getInt (arg_offset a) i) (lengthAt a i)
       (getInt (arg_offset b) i) (lengthAt b i) = true.
Proof.
  unfold related_rows. rewrite forallb_forall. intros Hall Hi.
  specialize (Hall i ltac:(apply in_seq; lia)).
  rewrite !andb_true_iff, !bool_decide_eq_true in Hall. tauto.
Qed.

Lemma wf_three_args a n : wf_batch a n = true -> wf_batch (three_args a) n = true.
Proof.
  unfold wf_batch, three_args, batchBound, rowBound. simpl.
  rewrite !andb_true_iff. tauto.
Qed.

Lemma getInt_expandInt n c i : (i < n)%nat -> getInt (expandInt n c) i = getInt c i.
Proof.
  intros Hi. destruct c as [v | vs]; [| reflexivity]. simpl.
  rewrite nth_lookup, lookup_replicate_2 by lia. reflexivity.
Qed.

Lemma wf_expandInt n c : wf_IntColumn n c = true -> wf_IntColumn n (expandInt n c) = true.
Proof.
  destruct c as [v | vs]; [| exact id]. simpl. intros Hv.
  rewrite length_replicate, Nat.eqb_refl. simpl.
  apply forallb_forall. intros x Hx.
  apply list_elem_of_In, elem_of_replicate in Hx as [-> _]. exact Hv.
Qed.

Lemma wf_expandInts a n : wf_batch a n = true -> wf_batch (expandInts n a) n = true.
Proof.
  unfold wf_batch, expandInts, batchBound, rowBound. simpl.
  rewrite !andb_true_iff. intros [[[[Hi Hr] Ho] Hl] Hb].
  repeat split; try assumption.
  - by apply wf_expandInt.
  - destruct (arg_length a) as [c |]; [by apply wf_expandInt | reflexivity].
Qed.

(** C1. Byte mode: for an input row and a replacement held anywhere in their
    buffers, a resolved prefix length [p] in [[0, input length]] and a
    resolved removal length [L >= 0], the splice block appends
    [input[0, p) ++ replacement ++ input[p + L, input length)] and one zero
    terminator; the suffix is empty whenever [p + L] exceeds the input
    length.  It leaves [res_offset] behind the row and records it as the
    row's end offset. *)
Theorem splice_bytes_correct in_buf in_pos in_bytes rep_buf rep_pos rep_bytes i st :
  let input := slice in_buf in_pos in_bytes in
  let replacement := slice rep_buf rep_pos rep_bytes in
  let p := valid_offset st in
  let L := valid_length st in
  0 <= in_pos -> 0 <= in_bytes -> in_pos + in_bytes <= len in_buf ->
  in_pos + in_bytes < 2 ^ 64 ->
  0 <= rep_pos -> 0 <= rep_bytes -> rep_pos + rep_bytes <= len rep_buf ->
  res_offset st = len (res_data st) ->
  0 <= p <= in_bytes -> 0 <= L -> in_bytes + L < 2 ^ 64 ->
  len (res_data st) + in_bytes + rep_bytes + 1 < 2 ^ 64 ->
  let st' := splice false in_buf in_pos in_bytes in_bytes
               rep_buf rep_pos rep_bytes rep_bytes i st in
  res_data st'
  = res_data st
    ++ (take (Z.to_nat p) input ++ replacement ++ drop (Z.to_nat (p + L)) input)
    ++ ["000"%byte]
  /\ (in_bytes < p + L -> drop (Z.to_nat (p + L)) input = [])
  /\ res_offset st' = len (res_data st')
  /\ res_offsets st' = <[i := res_offset st']> (res_offsets st).
Proof.
  intros input replacement p L Hip Hib Hile Hilt Hrp Hrb Hrle Hro Hp HL HLb Hfit st'.
  subst st'.
  pose proof (splice_spec false in_buf in_pos in_bytes rep_buf rep_pos rep_bytes i st)
    as Hs.
  cbn [getSliceSize] in Hs. rewrite Hs by assumption. clear Hs.
  cbv zeta. cbn [res_data res_offset res_offsets spliceRow].
  repeat split.
  intros Hover. apply drop_ge.
  pose proof (slice_length in_buf in_pos in_bytes Hip Hib Hile). subst input. lia.
Qed.

(** C3. With a length argument [c]: in a row where its value is [>= 0] the
    removal length is that value; in a row where it is [< 0] the removal
    length is the size of the row's replacement and the row is the one that
    the call without length argument yields.  Hence a length column that is
    negative in every row, a negative constant in particular, gives the
    column of the three-argument call. *)
Theorem length_resolution is_utf8 a n c :
  arg_length a = Some c -> wf_batch a n = true ->
  let out := res_col (executeImpl is_utf8 a n) in
  let out3 := res_col (executeImpl is_utf8 (three_args a) n) in
  (forall i, (i < n)%nat ->
     let s := strAt (arg_input a) i in
     let r := strAt (arg_replace a) i in
     let p := getValidOffset (getInt (arg_offset a) i)
                (getSliceSize is_utf8 s 0 (len s)) in
     (0 <= getInt c i -> rowAt out i = spliceRow is_utf8 s r p (getInt c i))
     /\ (getInt c i < 0 ->
         rowAt out i = spliceRow is_utf8 s r p (getSliceSize is_utf8 r 0 (len r))
         /\ rowAt out i = rowAt out3 i))
  /\ ((forall i, (i < n)%nat -> getInt c i < 0) -> out = out3)
  /\ (forall v, c = IntConst v -> v < 0 -> out = out3).
Proof.
  intros Hc Hwf out out3. subst out out3.
  pose proof (wf_three_args a n Hwf) as Hwf3.
  rewrite !executeImpl_rows by assumption.
  assert (Hrows : forall i, (i < n)%nat -> getInt c i < 0 ->
            overlayRow is_utf8 (strAt (arg_input a) i) (strAt (arg_replace a) i)
              (getInt (arg_offset a) i) (lengthAt a i)
            = overlayRow is_utf8 (strAt (arg_input a) i) (strAt (arg_replace a) i)
                (getInt (arg_offset a) i) None).
  { intros i Hi Hneg. unfold lengthAt. rewrite Hc.
    by apply overlayRow_negative. }
  assert (Hall : (forall i, (i < n)%nat -> getInt c i < 0) ->
            fromRows (outRows is_utf8 a n)
            = fromRows (outRows is_utf8 (three_args a) n)).
  { intros Hneg. f_equal. apply outRows_ext. intros i Hi.
    rewrite Hrows by auto. reflexivity. }
  split; [| split].
  - intros i Hi s r p.
    destruct (fromRows_spec (outRows is_utf8 a n) i
                ltac:(by rewrite outRows_length)) as (_ & _ & _ & Hrow & _).
    destruct (fromRows_spec (outRows is_utf8 (three_args a) n) i
                ltac:(by rewrite outRows_length)) as (_ & _ & _ & Hrow3 & _).
    rewrite Hrow, Hrow3, !outRows_nth by assumption.
    apply wf_batch_spec in Hwf as (_ & _ & Hint & _).
    destruct (Hint i Hi) as [_ Hl]. unfold lengthAt in Hl. rewrite Hc in Hl.
    simpl in Hl. apply is_int64_spec in Hl.
    split.
    + intros Hpos. unfold overlayRow, lengthAt. rewrite Hc.
      unfold resolveLength, lengthOr.
      destruct (0 <=? getInt c i) eqn:E; [| apply Z.leb_gt in E; lia].
      rewrite to_size_t_nonneg by lia. reflexivity.
    + intros Hneg. rewrite Hrows by assumption. split; reflexivity.
  - exact Hall.
  - intros v -> Hv. apply Hall. intros i _. exact Hv.
Qed.

(** C4. The column that a batch yields depends only on the values in its
    rows, not on the variant that runs: a well-formed batch [b] that holds,
    row by row, the strings and integers of [a], in whichever shapes, gives
    the same column.  In particular, writing a constant offset or length of
    [a] out as a per-row column changes nothing, whichever of
    [constantConstant], [constantVector], [vectorConstant] and
    [vectorVector] the strings select. *)
Theorem dispatch_transparent is_utf8 a n :
  wf_batch a n = true ->
  (forall b, wf_batch b n = true -> related_rows n a b same_ints = true ->
     res_col (executeImpl is_utf8 b n) = res_col (executeImpl is_utf8 a n))
  /\ wf_batch (expandInts n a) n = true
  /\ res_col (executeImpl is_utf8 (expandInts n a) n)
     = res_col (executeImpl is_utf8 a n).
Proof.
  intros Hwf. split; [| split].
  - intros b Hwfb Hrel. rewrite !executeImpl_rows by assumption.
    f_equal. apply outRows_ext. intros i Hi.
    destruct (related_rows_spec n a b _ i Hrel Hi) as (Hs & Hr & HP).
    unfold same_ints in HP.
    rewrite andb_true_iff, Z.eqb_eq, bool_decide_eq_true in HP.
    destruct HP as [Ho Hl]. by rewrite Hs, Hr, Ho, Hl.
  - by apply wf_expandInts.
  - rewrite !executeImpl_rows by (try apply wf_expandInts; assumption).
    f_equal. apply outRows_ext. intros i Hi.
    unfold expandInts, lengthAt. cbn [arg_input arg_replace arg_offset arg_length].
    rewrite getInt_expandInt by assumption.
    destruct (arg_length a) as [c |]; [| reflexivity].
    by rewrite getInt_expandInt.
Qed.

(** C9. Whatever the shapes of its arguments, a batch of zero rows yields
    the empty string column, and neither [getValidOffset] nor the length
    resolution nor the splice block has run. *)
Theorem zero_rows is_utf8 a :
  executeImpl is_utf8 a 0 = {| res_col := ColumnString_create; ran := [] |}.
Proof. reflexivity. Qed.

(** C10. The output of a well-formed batch of [n] rows is a well-formed
    column: it has one end offset per input row, in row order (row [i]
    holds the result for row [i] of the arguments), each end offset lies
    behind the previous one, the last one is the number of bytes written,
    and the byte in front of each end offset is a zero terminator. *)
Theorem output_well_formed is_utf8 a n :
  wf_batch a n = true ->
  let out := res_col (executeImpl is_utf8 a n) in
  length (offsets out) = n
  /\ (forall i, (i < n)%nat ->
        prevOffset (offsets out) i < offsetAt (offsets out) i)
  /\ prevOffset (offsets out) n = len (chars out)
  /\ (forall i, (i < n)%nat ->
        chars out !! Z.to_nat (offsetAt (offsets out) i - 1) = Some "000"%byte)
  /\ (forall i, (i < n)%nat ->
        rowAt out i
        = overlayRow is_utf8 (strAt (arg_input a) i) (strAt (arg_replace a) i)
            (getInt (arg_offset a) i) (lengthAt a i)).
Proof.
  intros Hwf out. subst out. rewrite executeImpl_rows by assumption.
  pose proof (outRows_length is_utf8 a n) as Hlen.
  repeat split.
  - unfold fromRows. cbn [offsets]. by rewrite endOffsets_length.
  - intros i Hi.
    by destruct (fromRows_spec (outRows is_utf8 a n) i ltac:(lia)) as (H & _).
  - unfold fromRows. cbn [offsets chars].
    pose proof (prevOffset_endOffsets (outRows is_utf8 a n) []) as H.
    by rewrite app_nil_r, Hlen in H.
  - intros i Hi.
    by destruct (fromRows_spec (outRows is_utf8 a n) i ltac:(lia))
      as (_ & _ & _ & _ & H).
  - intros i Hi.
    destruct (fromRows_spec (outRows is_utf8 a n) i ltac:(lia))
      as (_ & _ & _ & H & _).
    rewrite H. by apply outRows_nth.
Qed.

Lemma wf_batch_row a n i :
  wf_batch a n = true -> (i < n)%nat ->
  is_int64 (getInt (arg_offset a) i) = true
  /\ int64_opt (lengthAt a i) = true
  /\ 2 * len (strAt (arg_input a) i) + len (strAt (arg_replace a) i) + 1 < 2 ^ 64.
Proof.
  intros Hwf Hi. apply wf_batch_spec in Hwf as (_ & _ & Hint & Hb).
  destruct (Hint i Hi) as [Ho Hl].
  pose proof (rowBound_le a n i Hi) as Hr. unfold rowBound in Hr.
  repeat split; try assumption. lia.
Qed.

Lemma getSliceSize_whole_range is_utf8 (s : list byte) :
  0 <= getSliceSize is_utf8 s 0 (len s) <= len s.
Proof. apply getSliceSize_range; lia. Qed.

(** C5. A batch [a] without length argument and a batch [b] that holds the
    same strings and offsets and, as length argument, the size of each
    row's replacement yield the same column: [overlay (s, r, o)] equals
    [overlay (s, r, o, length (r))], for every offset. *)
Theorem default_length_property is_utf8 a b n :
  wf_batch a n = true -> wf_batch b n = true ->
  related_rows n a b (default_length is_utf8) = true ->
  res_col (executeImpl is_utf8 a n) = res_col (executeImpl is_utf8 b n).
Proof.
  intros Hwfa Hwfb Hrel. rewrite !executeImpl_rows by assumption.
  f_equal. apply outRows_ext. intros i Hi.
  destruct (related_rows_spec n a b _ i Hrel Hi) as (Hs & Hr & HP).
  unfold default_length in HP.
  rewrite !andb_true_iff, Z.eqb_eq, !bool_decide_eq_true in HP.
  destruct HP as [[Ho Hl] Hl'].
  rewrite <- Hs, <- Hr, <- Ho, Hl, Hl'.
  destruct (wf_batch_row a n i Hwfa Hi) as (_ & _ & Hb).
  pose proof (getSliceSize_whole_range is_utf8 (strAt (arg_replace a) i)) as Hrs.
  unfold overlayRow, resolveLength, lengthOr.
  destruct (0 <=? _) eqn:E; [| reflexivity].
  rewrite to_size_t_nonneg by lia. reflexivity.
Qed.

(** C7. A batch [a] whose offsets are [- k] with [0 <= k <= size (s)] and a
    batch [b] that holds the same strings and lengths and the offsets
    [size (s) - k + 1] yield the same column. *)
Theorem negative_offset_property is_utf8 a b n :
  wf_batch a n = true -> wf_batch b n = true ->
  related_rows n a b (mirrored_offset is_utf8) = true ->
  res_col (executeImpl is_utf8 a n) = res_col (executeImpl is_utf8 b n).
Proof.
  intros Hwfa Hwfb Hrel. rewrite !executeImpl_rows by assumption.
  f_equal. apply outRows_ext. intros i Hi.
  destruct (related_rows_spec n a b _ i Hrel Hi) as (Hs & Hr & HP).
  unfold mirrored_offset in HP.
  rewrite !andb_true_iff, !Z.leb_le, Z.eqb_eq, bool_decide_eq_true in HP.
  destruct HP as [[[Hk1 Hk2] Ho'] Hl].
  destruct (wf_batch_row b n i Hwfb Hi) as (Hob & _ & _).
  apply is_int64_spec in Hob. rewrite Ho' in Hob.
  rewrite <- Hs, <- Hr, <- Hl, Ho'.
  destruct (wf_batch_row a n i Hwfa Hi) as (_ & _ & Hb).
  pose proof (getSliceSize_whole_range is_utf8 (strAt (arg_input a) i)) as Hsz.
  unfold overlayRow. f_equal.
  set (size := getSliceSize is_utf8 (strAt (arg_input a) i) 0
                 (len (strAt (arg_input a) i))) in *.
  set (o := getInt (arg_offset a) i) in *.
  rewrite !getValidOffset_math by lia.
  destruct (0 <? o) eqn:E1; [apply Z.ltb_lt in E1; lia |].
  destruct (size <? - o) eqn:E2; [apply Z.ltb_lt in E2; lia |].
  destruct (0 <? size + o + 1) eqn:E3; [| apply Z.ltb_ge in E3; lia].
  destruct (size + 1 <? size + o + 1) eqn:E4; [apply Z.ltb_lt in E4; lia |].
  lia.
Qed.

(** ** ASCII input in code-point mode *)

Lemma ascii_octet b :
  (UTF8.octet b <? 128) = true ->
  UTF8.isContinuationOctet b = false /\ UTF8.seqLength b = 1.
Proof.
  intros H. apply Z.ltb_lt in H. split.
  - unfold UTF8.isContinuationOctet. apply Z.eqb_neq. intros Hland.
    assert (Hbit : Z.testbit (Z.land (UTF8.octet b) 192) 7 = true)
      by (rewrite Hland; reflexivity).
    rewrite Z.land_spec in Hbit. apply andb_true_iff in Hbit as [Hbit _].
    assert (Hnn : 0 <= UTF8.octet b) by (unfold UTF8.octet; lia).
    rewrite (Z.bits_above_log2 (UTF8.octet b) 7) in Hbit; [discriminate | lia |].
    destruct (Z.eq_dec (UTF8.octet b) 0) as [-> | Hne]; [reflexivity |].
    apply Z.log2_lt_pow2; lia.
  - unfold UTF8.seqLength. cbv zeta.
    destruct (UTF8.octet b <? 192) eqn:E; [reflexivity | apply Z.ltb_ge in E; lia].
Qed.

Lemma ascii_spec s : ascii s = true <-> forall b, In b s -> (UTF8.octet b <? 128) = true.
Proof. unfold ascii. apply forallb_forall. Qed.

Lemma countCodePoints_ascii s : ascii s = true -> UTF8.countCodePoints s = len s.
Proof.
  unfold UTF8.countCodePoints. induction s as [| b s IH]; [reflexivity |].
  simpl. rewrite andb_true_iff. intros [Hb Hs].
  destruct (ascii_octet b Hb) as [-> _]. simpl. specialize (IH Hs). lia.
Qed.

Lemma forward_ascii fuel s pos size :
  ascii s = true -> 0 <= pos <= len s -> 0 <= size -> len s - pos <= Z.of_nat fuel ->
  UTF8.forward fuel s pos size = pos + Z.min size (len s - pos).
Proof.
  intros Hs. revert pos size.
  induction fuel as [| fuel IH]; intros pos size Hpos Hsize Hfuel; simpl.
  - lia.
  - destruct (0 <? size) eqn:E1; simpl.
    + destruct (pos <? len s) eqn:E2.
      * apply Z.ltb_lt in E1, E2.
        assert (Hb : (UTF8.octet (nth (Z.to_nat pos) s "000"%byte) <? 128) = true).
        { apply (proj1 (ascii_spec s) Hs), nth_In. lia. }
        destruct (ascii_octet _ Hb) as [_ ->].
        rewrite IH by lia. lia.
      * apply Z.ltb_ge in E2. lia.
    + apply Z.ltb_ge in E1. lia.
Qed.

Lemma backward_ascii rs size :
  ascii rs = true -> 0 <= size -> UTF8.backward rs size = Z.min size (len rs).
Proof.
  revert size. induction rs as [| b rs IH]; intros size Hs Hsize; simpl.
  - lia.
  - simpl in Hs. apply andb_true_iff in Hs as [Hb Hs].
    destruct (ascii_octet b Hb) as [-> _].
    destruct (0 <? size) eqn:E.
    + apply Z.ltb_lt in E. rewrite IH by (try assumption; lia). lia.
    + apply Z.ltb_ge in E. lia.
Qed.

Lemma ascii_rev s : ascii s = true -> ascii (rev s) = true.
Proof.
  rewrite !ascii_spec. intros H b Hb. apply H. by apply in_rev.
Qed.

Lemma spliceRow_ascii s r p L :
  ascii s = true -> 0 <= p <= len s -> 0 <= L ->
  spliceRow true s r p L = spliceRow false s r p L.
Proof.
  intros Hs Hp HL. unfold spliceRow.
  rewrite (countCodePoints_ascii s Hs).
  rewrite forward_ascii by (try assumption; lia).
  rewrite backward_ascii
    by first [ by apply ascii_rev
             | destruct (len s <? p + L) eqn:E; [| apply Z.ltb_ge in E]; lia ].
  rewrite length_rev.
  replace (if len s <? 0 + Z.min p (len s - 0) then len s
           else 0 + Z.min p (len s - 0)) with p
    by (destruct (len s <? 0 + Z.min p (len s - 0)) eqn:E;
        [apply Z.ltb_lt in E | apply Z.ltb_ge in E]; lia).
  f_equal. f_equal.
  destruct (len s <? p + L) eqn:E.
  - apply Z.ltb_lt in E. rewrite !drop_ge by lia. reflexivity.
  - apply Z.ltb_ge in E. f_equal. lia.
Qed.

Lemma getSliceSize_ascii s :
  ascii s = true -> getSliceSize true s 0 (len s) = getSliceSize false s 0 (len s).
Proof.
  intros Hs. unfold getSliceSize. rewrite slice_whole. by apply countCodePoints_ascii.
Qed.

(** C6. On a batch whose inputs and replacements consist of single-byte
    (ASCII) code points only, [overlayUTF8] yields the column that
    [overlay] yields, for every offset and length. *)
Theorem utf8_ascii_agreement a n :
  wf_batch a n = true -> ascii_rows n a = true ->
  res_col (executeImpl true a n) = res_col (executeImpl false a n).
Proof.
  intros Hwf Hascii. rewrite !executeImpl_rows by assumption.
  f_equal. apply outRows_ext. intros i Hi.
  unfold ascii_rows in Hascii. rewrite forallb_forall in Hascii.
  specialize (Hascii i ltac:(apply in_seq; lia)).
  apply andb_true_iff in Hascii as [Hs Hr].
  destruct (wf_batch_row a n i Hwf Hi) as (Ho & Hl & Hb).
  unfold overlayRow. rewrite !getSliceSize_ascii by assumption.
  cbn [getSliceSize].
  apply is_int64_spec in Ho.
  pose proof (getValidOffset_range (getInt (arg_offset a) i)
                (len (strAt (arg_input a) i)) Ho ltac:(lia)).
  pose proof (resolveLength_range (lengthAt a i)
                (len (strAt (arg_replace a) i)) Hl ltac:(lia)).
  apply spliceRow_ascii; (assumption || lia).
Qed.

(** C8 as amended. In every shape of the one-row batch,
    [overlay ("Hello, World!", "abc", 1)] removes as many bytes as the
    replacement has, that is the three bytes "Hel", and yields
    "abclo, World!". *)
Theorem scenario_default_length ic rc oc :
  res_col (executeImpl false (scenario ic rc oc) 1)
  = fromRows [bytes "abclo, World!"].
Proof. destruct ic, rc, oc; vm_compute; reflexivity. Qed.

(** The other scenarios of section 8. *)
Example scenario_explicit_length :
  res_col (executeImpl false (call (bytes "Hello, World!") (bytes "abc") 1 (Some 5)) 1)
  = fromRows [bytes "abc, World!"].
Proof. vm_compute. reflexivity. Qed.

Example scenario_negative_offset :
  res_col (executeImpl false (call (bytes "Hello") (bytes "XY") (-3) (Some 2)) 1)
  = fromRows [bytes "HeXYo"].
Proof. vm_compute. reflexivity. Qed.

Example scenario_clamped_offset :
  res_col (executeImpl false (call (bytes "Hi") (bytes "abcdef") 100 (Some 0)) 1)
  = fromRows [bytes "Hiabcdef"].
Proof. vm_compute. reflexivity. Qed.

Example scenario_code_points :
  res_col (executeImpl true (call Muenchen (bytes "X") 2 (Some 1)) 1)
  = fromRows [bytes "MXnchen"].
Proof. vm_compute. reflexivity. Qed.

(** ** Further properties: single rows *)

Lemma executeImpl_rowAt is_utf8 a n i :
  wf_batch a n = true -> (i < n)%nat ->
  rowAt (res_col (executeImpl is_utf8 a n)) i
  = overlayRow is_utf8 (strAt (arg_input a) i) (strAt (arg_replace a) i)
      (getInt (arg_offset a) i) (lengthAt a i).
Proof.
  intros Hwf Hi. rewrite executeImpl_rows by assumption.
  destruct (fromRows_spec (outRows is_utf8 a n) i
              ltac:(by rewrite outRows_length)) as (_ & _ & _ & H & _).
  rewrite H. by apply outRows_nth.
Qed.

(** The resolved values of a row in byte mode. *)
Lemma byte_row_resolved a n i :
  wf_batch a n = true -> (i < n)%nat ->
  let s := strAt (arg_input a) i in
  let r := strAt (arg_replace a) i in
  let p := getValidOffset (getInt (arg_offset a) i) (len s) in
  let L := resolveLength (lengthAt a i) (len r) in
  rowAt (res_col (executeImpl false a n)) i
  = take (Z.to_nat p) s ++ r ++ drop (Z.to_nat (p + L)) s
  /\ 0 <= p <= len s /\ 0 <= L
  /\ - 2 ^ 63 <= getInt (arg_offset a) i < 2 ^ 63
  /\ len s < 2 ^ 63.
Proof.
  intros Hwf Hi. cbv zeta. rewrite executeImpl_rowAt by assumption.
  destruct (wf_batch_row a n i Hwf Hi) as (Ho & Hl & Hb).
  apply is_int64_spec in Ho.
  pose proof (getValidOffset_range (getInt (arg_offset a) i)
                (len (strAt (arg_input a) i)) Ho ltac:(lia)).
  pose proof (resolveLength_range (lengthAt a i)
                (len (strAt (arg_replace a) i)) Hl ltac:(lia)).
  repeat split; try lia.
Qed.

(** X1. Byte mode: the length of an output row is the length of the input
    plus the length of the replacement minus the number of bytes removed,
    which is the removal length cut down to what the input has behind the
    prefix. *)
Theorem byte_row_length a n i :
  wf_batch a n = true -> (i < n)%nat ->
  let s := strAt (arg_input a) i in
  let r := strAt (arg_replace a) i in
  let p := getValidOffset (getInt (arg_offset a) i) (len s) in
  let L := resolveLength (lengthAt a i) (len r) in
  len (rowAt (res_col (executeImpl false a n)) i)
  = len s + len r - Z.min L (len s - p).
Proof.
  intros Hwf Hi. cbv zeta.
  destruct (byte_row_resolved a n i Hwf Hi) as (Hrow & Hp & HL & _).
  rewrite Hrow, !length_app, length_take, length_drop. lia.
Qed.

(** X2. Byte mode: an offset of 0 and every offset behind the input's
    length append: the row is the whole input followed by the replacement,
    whatever the length argument. *)
Theorem offset_past_end_appends a n i :
  wf_batch a n = true -> (i < n)%nat ->
  getInt (arg_offset a) i = 0
  \/ len (strAt (arg_input a) i) < getInt (arg_offset a) i ->
  rowAt (res_col (executeImpl false a n)) i
  = strAt (arg_input a) i ++ strAt (arg_replace a) i.
Proof.
  intros Hwf Hi Ho.
  destruct (byte_row_resolved a n i Hwf Hi) as (Hrow & Hp & HL & Hint & Hs).
  rewrite Hrow.
  set (s := strAt (arg_input a) i) in *.
  set (o := getInt (arg_offset a) i) in *.
  assert (Hpn : getValidOffset o (len s) = len s).
  { rewrite getValidOffset_math by lia.
    destruct (0 <? o) eqn:E1.
    - apply Z.ltb_lt in E1.
      destruct (len s + 1 <? o) eqn:E2; [reflexivity | apply Z.ltb_ge in E2; lia].
    - apply Z.ltb_ge in E1.
      destruct (len s <? - o) eqn:E2; [apply Z.ltb_lt in E2; lia | lia]. }
  rewrite Hpn in *.
  rewrite take_ge, drop_ge by lia. by rewrite app_nil_r.
Qed.

(** X3. Byte mode: the offset 1 and every offset [<= - length (s)] put the
    replacement in front: the row is the replacement followed by the input
    without its first [L] bytes, [L] being the removal length; when [L]
    reaches the input's length the row is the replacement alone. *)
Theorem offset_at_start_replaces_head a n i :
  wf_batch a n = true -> (i < n)%nat ->
  getInt (arg_offset a) i = 1
  \/ getInt (arg_offset a) i <= - len (strAt (arg_input a) i) ->
  let s := strAt (arg_input a) i in
  let r := strAt (arg_replace a) i in
  let L := resolveLength (lengthAt a i) (len r) in
  rowAt (res_col (executeImpl false a n)) i = r ++ drop (Z.to_nat L) s
  /\ (len s <= L -> rowAt (res_col (executeImpl false a n)) i = r).
Proof.
  intros Hwf Hi Ho. cbv zeta.
  destruct (byte_row_resolved a n i Hwf Hi) as (Hrow & Hp & HL & Hint & Hs).
  rewrite Hrow.
  set (s := strAt (arg_input a) i) in *.
  set (o := getInt (arg_offset a) i) in *.
  assert (Hp0 : getValidOffset o (len s) = 0).
  { rewrite getValidOffset_math by lia.
    destruct (0 <? o) eqn:E1.
    - apply Z.ltb_lt in E1.
      destruct (len s + 1 <? o) eqn:E2; [apply Z.ltb_lt in E2; lia | lia].
    - apply Z.ltb_ge in E1.
      destruct (len s <? - o) eqn:E2; [reflexivity | apply Z.ltb_ge in E2; lia]. }
  rewrite Hp0. simpl. split; [reflexivity |].
  intros Hfull. rewrite drop_ge by lia. by rewrite app_nil_r.
Qed.

(** X4. Byte mode: with an empty replacement and no length argument, or a
    length argument [<= 0], the row is the input, whatever the offset. *)
Theorem empty_replacement_keeps_input a n i :
  wf_batch a n = true -> (i < n)%nat ->
  strAt (arg_replace a) i = [] ->
  match lengthAt a i with Some l => l <= 0 | None => True end ->
  rowAt (res_col (executeImpl false a n)) i = strAt (arg_input a) i.
Proof.
  intros Hwf Hi Hr Hl.
  destruct (byte_row_resolved a n i Hwf Hi) as (Hrow & Hp & HL & _).
  rewrite Hrow, Hr.
  assert (HL0 : resolveLength (lengthAt a i) (len (@nil byte)) = 0).
  { destruct (lengthAt a i) as [l |]; [| reflexivity].
    simpl. unfold lengthOr.
    destruct (0 <=? l) eqn:E; [| reflexivity].
    apply Z.leb_le in E. assert (l = 0) as -> by lia. reflexivity. }
  rewrite HL0, Z.add_0_r. simpl. apply take_drop.
Qed.

(** X5. In both modes, an empty input yields the replacement, whatever the
    offset and the length argument. *)
Theorem empty_input_yields_replacement is_utf8 a n i :
  wf_batch a n = true -> (i < n)%nat ->
  strAt (arg_input a) i = [] ->
  rowAt (res_col (executeImpl is_utf8 a n)) i = strAt (arg_replace a) i.
Proof.
  intros Hwf Hi Hs. rewrite executeImpl_rowAt by assumption.
  rewrite Hs. unfold overlayRow, spliceRow.
  destruct is_utf8.
  - simpl UTF8.forward. simpl length. rewrite !take_nil, !drop_nil.
    by rewrite app_nil_r.
  - rewrite !take_nil, !drop_nil. by rewrite app_nil_r.
Qed.

(** X6. Every offset stands for the in-range offset [p + 1], [p] being the
    prefix length it resolves to: a batch [b] that holds the strings and
    lengths of [a] and these offsets yields the same column.  Offsets
    behind the end thus behave as [length (s) + 1]. *)
Theorem offset_canonical is_utf8 a b n :
  wf_batch a n = true -> wf_batch b n = true ->
  related_rows n a b (canonical_offset is_utf8) = true ->
  res_col (executeImpl is_utf8 a n) = res_col (executeImpl is_utf8 b n).
Proof.
  intros Hwfa Hwfb Hrel. rewrite !executeImpl_rows by assumption.
  f_equal. apply outRows_ext. intros i Hi.
  destruct (related_rows_spec n a b _ i Hrel Hi) as (Hs & Hr & HP).
  unfold canonical_offset in HP.
  rewrite andb_true_iff, Z.eqb_eq, bool_decide_eq_true in HP.
  destruct HP as [Ho' Hl].
  destruct (wf_batch_row b n i Hwfb Hi) as (Hob & _ & _).
  apply is_int64_spec in Hob. rewrite Ho' in Hob.
  destruct (wf_batch_row a n i Hwfa Hi) as (Hoa & _ & Hb).
  apply is_int64_spec in Hoa.
  rewrite <- Hs, <- Hr, <- Hl, Ho'.
  pose proof (getSliceSize_whole_range is_utf8 (strAt (arg_input a) i)) as Hsz.
  unfold overlayRow. f_equal.
  set (size := getSliceSize is_utf8 (strAt (arg_input a) i) 0
                 (len (strAt (arg_input a) i))) in *.
  pose proof (getValidOffset_range (getInt (arg_offset a) i) size Hoa ltac:(lia))
    as Hp.
  set (p := getValidOffset (getInt (arg_offset a) i) size) in *.
  rewrite (getValidOffset_math (p + 1) size) by lia.
  destruct (0 <? p + 1) eqn:E1; [| apply Z.ltb_ge in E1; lia].
  destruct (size + 1 <? p + 1) eqn:E2; [apply Z.ltb_lt in E2; lia | lia].
Qed.

(** ** Further properties: calls that follow one another *)

Lemma wf_call s r o l :
  is_int64 o = true -> int64_opt l = true ->
  2 * len s + len r + 1 < 2 ^ 64 ->
  wf_batch (call s r o l) 1 = true.
Proof.
  intros Ho Hl Hb. unfold wf_batch, call, batchBound, rowBound. simpl.
  rewrite Ho. destruct l as [l |]; simpl in *; rewrite ?Hl; simpl;
    apply Z.ltb_lt; lia.
Qed.

Lemma overlay1_spec is_utf8 s r o l :
  is_int64 o = true -> int64_opt l = true ->
  2 * len s + len r + 1 < 2 ^ 64 ->
  overlay1 is_utf8 s r o l = overlayRow is_utf8 s r o l.
Proof.
  intros Ho Hl Hb. unfold overlay1.
  rewrite executeImpl_rowAt by (try apply wf_call; (assumption || lia)).
  unfold call, lengthAt. simpl. by destruct l.
Qed.

(** Byte mode, in-range positive offset, explicit length. *)
Lemma overlayRow_in_range s r o L :
  1 <= o <= len s + 1 -> 0 <= L < 2 ^ 63 -> len s < 2 ^ 62 ->
  overlayRow false s r o (Some L)
  = take (Z.to_nat (o - 1)) s ++ r ++ drop (Z.to_nat (o - 1 + L)) s.
Proof.
  intros Ho HL Hs. unfold overlayRow, spliceRow, resolveLength, lengthOr.
  cbn [getSliceSize].
  rewrite getValidOffset_math by lia.
  destruct (0 <? o) eqn:E1; [| apply Z.ltb_ge in E1; lia].
  destruct (len s + 1 <? o) eqn:E2; [apply Z.ltb_lt in E2; lia |].
  destruct (0 <=? L) eqn:E3; [| apply Z.leb_gt in E3; lia].
  rewrite to_size_t_nonneg by lia. reflexivity.
Qed.

Lemma overlayRow_again s r x o L :
  1 <= o <= len s + 1 -> 0 <= L ->
  len s < 2 ^ 61 -> len r < 2 ^ 61 ->
  let t := take (Z.to_nat (o - 1)) s ++ r ++ drop (Z.to_nat (o - 1 + L)) s in
  overlayRow false t x o (Some (len r))
  = take (Z.to_nat (o - 1)) s ++ x ++ drop (Z.to_nat (o - 1 + L)) s.
Proof.
  intros Ho HL Hs Hr t.
  assert (Hp : length (take (Z.to_nat (o - 1)) s) = Z.to_nat (o - 1))
    by (rewrite length_take; lia).
  assert (Ht : len t <= len s + len r /\ o - 1 + len r <= len t).
  { subst t. rewrite !length_app, length_drop. lia. }
  rewrite overlayRow_in_range by lia.
  subst t. f_equal.
  - by rewrite take_app_length'.
  - f_equal. rewrite app_assoc. rewrite drop_app_length'; [reflexivity |].
    rewrite length_app. lia.
Qed.

(** X7. Byte mode, offset in [[1, length (s) + 1]]: a second call at the
    same offset whose length is the size of the first replacement replaces
    exactly what the first call put in, so the two calls amount to one call
    with the second replacement. *)
Theorem overlay_again_replaces_replacement (s r x : list byte) (o L : Z) :
  1 <= o <= len s + 1 -> 0 <= L < 2 ^ 63 ->
  len s < 2 ^ 61 -> len r < 2 ^ 61 -> len x < 2 ^ 61 ->
  overlay1 false (overlay1 false s r o (Some L)) x o (Some (len r))
  = overlay1 false s x o (Some L).
Proof.
  intros Ho HL Hs Hr Hx.
  assert (Hio : is_int64 o = true) by (apply is_int64_spec; lia).
  assert (HiL : int64_opt (Some L) = true) by (apply is_int64_spec; lia).
  assert (Hir : int64_opt (Some (len r)) = true) by (apply is_int64_spec; lia).
  rewrite (overlay1_spec false s r) by (assumption || lia).
  rewrite (overlay1_spec false s x) by (assumption || lia).
  rewrite !(overlayRow_in_range s) by lia.
  assert (Ht : len (take (Z.to_nat (o - 1)) s ++ r ++ drop (Z.to_nat (o - 1 + L)) s)
               <= len s + len r)
    by (rewrite !length_app, length_take, length_drop; lia).
  rewrite overlay1_spec by (assumption || lia).
  apply overlayRow_again; lia.
Qed.

(** X8. Byte mode, offset in [[1, length (s) + 1]]: putting back the bytes
    that a call removed, at the same offset and over the size of its
    replacement, restores the input. *)
Theorem overlay_undo (s r : list byte) (o L : Z) :
  1 <= o <= len s + 1 -> 0 <= L < 2 ^ 63 ->
  len s < 2 ^ 61 -> len r < 2 ^ 61 ->
  overlay1 false (overlay1 false s r o (Some L)) (slice s (o - 1) L) o
           (Some (len r))
  = s.
Proof.
  intros Ho HL Hs Hr.
  assert (Hio : is_int64 o = true) by (apply is_int64_spec; lia).
  assert (HiL : int64_opt (Some L) = true) by (apply is_int64_spec; lia).
  assert (Hir : int64_opt (Some (len r)) = true) by (apply is_int64_spec; lia).
  assert (Hx : len (slice s (o - 1) L) <= len s)
    by (unfold slice; rewrite length_take, length_drop; lia).
  rewrite (overlay1_spec false s r) by (assumption || lia).
  rewrite (overlayRow_in_range s) by lia.
  assert (Ht : len (take (Z.to_nat (o - 1)) s ++ r ++ drop (Z.to_nat (o - 1 + L)) s)
               <= len s + len r)
    by (rewrite !length_app, length_take, length_drop; lia).
  rewrite overlay1_spec by (assumption || lia).
  rewrite overlayRow_again by lia.
  unfold slice.
  replace (Z.to_nat (o - 1 + L)) with (Z.to_nat (o - 1) + Z.to_nat L)%nat by lia.
  rewrite <- drop_drop, app_assoc, <- (app_assoc (take _ s)), take_drop.
  apply take_drop.
Qed.

(** X9. Byte mode, offset in [[1, length (s) + 1]]: the call with three
    arguments is idempotent. *)
Theorem overlay_default_idempotent (s r : list byte) (o : Z) :
  1 <= o <= len s + 1 -> len s < 2 ^ 61 -> len r < 2 ^ 61 ->
  overlay1 false (overlay1 false s r o None) r o None
  = overlay1 false s r o None.
Proof.
  intros Ho Hs Hr.
  assert (Hio : is_int64 o = true) by (apply is_int64_spec; lia).
  assert (Hir : int64_opt (Some (len r)) = true) by (apply is_int64_spec; lia).
  assert (Hdef : forall t, overlayRow false t r o None
                           = overlayRow false t r o (Some (len r))).
  { intros t. unfold overlayRow, resolveLength, lengthOr. cbn [getSliceSize].
    destruct (0 <=? len r) eqn:E; [| reflexivity].
    rewrite to_size_t_nonneg by lia. reflexivity. }
  rewrite (overlay1_spec false s r) by (done || lia).
  rewrite Hdef, (overlayRow_in_range s) by lia.
  assert (Ht : len (take (Z.to_nat (o - 1)) s ++ r
                    ++ drop (Z.to_nat (o - 1 + len r)) s) <= len s + len r)
    by (rewrite !length_app, length_take, length_drop; lia).
  rewrite overlay1_spec by (done || lia).
  rewrite Hdef. apply overlayRow_again; lia.
Qed.

(** ** Further properties: the output as a column, and what runs how often *)

Lemma overlayRow_length_le is_utf8 s r o l :
  len (overlayRow is_utf8 s r o l) <= 2 * len s + len r.
Proof.
  unfold overlayRow, spliceRow.
  destruct is_utf8; rewrite !length_app, length_take, length_drop; lia.
Qed.

Lemma terminated_length_le (rowf : nat -> list byte) (boundf : nat -> Z) n :
  (forall i, (i < n)%nat -> len (rowf i) + 1 <= boundf i) ->
  len (terminated (map rowf (seq 0 n))) <= total (map boundf (seq 0 n)).
Proof.
  intros H. induction n as [| n IH]; [simpl; lia |].
  rewrite seq_S, !map_app.
  change (map rowf [(0 + n)%nat]) with [rowf n].
  change (map boundf [(0 + n)%nat]) with [boundf n].
  rewrite terminated_snoc, total_snoc, !length_app. simpl.
  specialize (H n ltac:(lia)) as Hn.
  specialize (IH ltac:(intros i Hi; apply H; lia)). lia.
Qed.

(** X10. The output of a well-formed batch keeps the invariant that the
    variants rely on for their own string columns (one end offset per row,
    strictly increasing, inside the bytes, whose number is a [size_t]), so
    it can be the input of a further call; it takes no more room than the
    batch's bound. *)
Theorem output_is_input_column is_utf8 a n :
  wf_batch a n = true ->
  wf_ColumnString n (res_col (executeImpl is_utf8 a n)) = true
  /\ len (chars (res_col (executeImpl is_utf8 a n))) <= batchBound a n.
Proof.
  intros Hwf. pose proof Hwf as Hwf'.
  apply wf_batch_spec in Hwf' as (_ & _ & _ & Hb).
  rewrite executeImpl_rows by assumption.
  assert (Hsize : len (chars (fromRows (outRows is_utf8 a n))) <= batchBound a n).
  { unfold fromRows, outRows, batchBound. cbn [chars].
    apply terminated_length_le. intros i Hi. unfold rowBound.
    pose proof (overlayRow_length_le is_utf8 (strAt (arg_input a) i)
                  (strAt (arg_replace a) i) (getInt (arg_offset a) i)
                  (lengthAt a i)). lia. }
  split; [| exact Hsize].
  unfold wf_ColumnString. rewrite !andb_true_iff. repeat split.
  - apply Nat.eqb_eq. unfold fromRows. cbn [offsets].
    by rewrite endOffsets_length, outRows_length.
  - apply Z.ltb_lt. lia.
  - apply forallb_forall. intros i Hi. apply in_seq in Hi.
    destruct (fromRows_spec (outRows is_utf8 a n) i
                ltac:(rewrite outRows_length; lia)) as (H1 & _ & H2 & _).
    apply andb_true_iff. split; [by apply Z.ltb_lt | by apply Z.leb_le].
Qed.

Lemma calls_splice is_utf8 in_buf in_pos in_bytes input_size
    rep_buf rep_pos rep_bytes replace_size i st :
  calls (splice is_utf8 in_buf in_pos in_bytes input_size
           rep_buf rep_pos rep_bytes replace_size i st)
  = calls st ++ [Splice].
Proof.
  unfold splice.
  repeat match goal with
         | |- context [if ?c then _ else _] => destruct c
         end; reflexivity.
Qed.

Lemma calls_for_rows body ev n st0 :
  (forall i st, calls (body i st) = calls st ++ ev) ->
  calls (for_rows n body st0) = calls st0 ++ concat (replicate n ev).
Proof.
  intros Hbody.
  apply (for_rows_ind
           (fun k st => calls st = calls st0 ++ concat (replicate k ev))).
  - simpl. by rewrite app_nil_r.
  - intros i st _ Hst. rewrite Hbody, Hst, <- app_assoc. f_equal.
    rewrite replicate_S_end, concat_app. simpl. by rewrite app_nil_r.
Qed.

Lemma runs_app c l k : runs c (l ++ k) = (runs c l + runs c k)%nat.
Proof. unfold runs. by rewrite List.filter_app, length_app. Qed.

Lemma runs_rounds c ev n : runs c (concat (replicate n ev)) = (n * runs c ev)%nat.
Proof.
  induction n as [| n IH]; [reflexivity |].
  simpl. rewrite runs_app, IH. lia.
Qed.

(** X11. In a batch of [n > 0] rows the splice block runs once per row.
    [getValidOffset] is evaluated once for the whole batch when the input
    and the offset are both constant, and once per row otherwise.  The
    removal length is settled once in front of the loop when the length is
    a non-negative constant, or when it is the size of a constant
    replacement; otherwise it is settled in every row. *)
Theorem resolver_runs is_utf8 a n :
  (0 < n)%nat ->
  let log := ran (executeImpl is_utf8 a n) in
  runs Splice log = n
  /\ runs ResolveOffset log
     = (if isConstString (arg_input a) && isConstInt (arg_offset a)
        then 1%nat else n)
  /\ runs ResolveLength log = (if lengthHoisted a then 1%nat else n).
Proof.
  intros Hn. cbv zeta. unfold executeImpl.
  destruct n as [| m]; [lia |]. cbn [Nat.eqb]. set (n := S m) in *.
  unfold lengthHoisted.
  destruct a as [cin crep co cl]. cbn [arg_input arg_replace arg_offset arg_length].
  destruct co as [vo | vos], cl as [[vl | vls] |], cin as [s | ci], crep as [r | cr];
    cbn [negb andb orb isConstString isConstInt OVERLAY_EXECUTE_CASE];
    unfold constantConstant, constantVector, vectorConstant, vectorVector;
    cbn [negb andb].
  all: try (destruct (vl <? 0) eqn:Hneg;
            [apply Z.ltb_lt in Hneg;
             assert (Hle : (0 <=? vl) = false) by (apply Z.leb_gt; lia)
            | apply Z.ltb_ge in Hneg;
              assert (Hle : (0 <=? vl) = true) by (apply Z.leb_le; lia)];
            rewrite ?Hle).
  all: unfold constantConstant_main, constantVector_main, vectorConstant_main,
         vectorVector_main, finish; cbn [ran negb andb orb]; cbv zeta;
    erewrite calls_for_rows
      by (intros i st; rewrite calls_splice;
          cbn [calls set_valid_offset set_valid_length];
          rewrite <- ?app_assoc; reflexivity);
    rewrite !runs_app, !runs_rounds;
    cbn [calls enter set_valid_offset set_valid_length];
    repeat split; cbn; lia.
Qed.

(** ** Further properties: code-point mode on whole code points *)

Lemma code_point_spec c :
  code_point c = true ->
  exists b rest, c = b :: rest
    /\ UTF8.isContinuationOctet b = false
    /\ UTF8.seqLength b = len c
    /\ forallb UTF8.isContinuationOctet rest = true.
Proof.
  destruct c as [| b rest]; [discriminate |]. simpl.
  rewrite !andb_true_iff, negb_true_iff, Z.eqb_eq. intros [[H1 H2] H3].
  exists b, rest. repeat split; assumption.
Qed.

Lemma countCodePoints_app l k :
  UTF8.countCodePoints (l ++ k) = UTF8.countCodePoints l + UTF8.countCodePoints k.
Proof. unfold UTF8.countCodePoints. rewrite List.filter_app, length_app. lia. Qed.

Lemma countCodePoints_conts l :
  forallb UTF8.isContinuationOctet l = true -> UTF8.countCodePoints l = 0.
Proof.
  unfold UTF8.countCodePoints. induction l as [| b l IH]; [reflexivity |].
  simpl. rewrite andb_true_iff. intros [-> Hl]. simpl. by apply IH.
Qed.

Lemma countCodePoints_cps cps :
  forallb code_point cps = true -> UTF8.countCodePoints (concat cps) = len cps.
Proof.
  induction cps as [| c cps IH]; [reflexivity |].
  simpl. rewrite andb_true_iff. intros [Hc Hcps].
  destruct (code_point_spec c Hc) as (b & rest & -> & Hb & _ & Hrest).
  rewrite countCodePoints_app, (IH Hcps).
  change (b :: rest) with ([b] ++ rest).
  rewrite countCodePoints_app, (countCodePoints_conts rest Hrest).
  unfold UTF8.countCodePoints. simpl. rewrite Hb. simpl. lia.
Qed.

Lemma forward_shift pre s fuel pos size :
  0 <= pos ->
  UTF8.forward fuel (pre ++ s) (len pre + pos) size
  = len pre + UTF8.forward fuel s pos size.
Proof.
  revert pos size. induction fuel as [| fuel IH]; intros pos size Hpos; simpl.
  - reflexivity.
  - replace (len pre + pos <? len (pre ++ s)) with (pos <? len s)
      by (rewrite length_app;
          destruct (pos <? len s) eqn:E;
          [apply Z.ltb_lt in E; symmetry; apply Z.ltb_lt
          | apply Z.ltb_ge in E; symmetry; apply Z.ltb_ge]; lia).
    destruct ((0 <? size) && (pos <? len s)); [| reflexivity].
    replace (nth (Z.to_nat (len pre + pos)) (pre ++ s) "000"%byte)
      with (nth (Z.to_nat pos) s "000"%byte)
      by (rewrite app_nth2 by lia; f_equal; lia).
    pose proof (seqLength_pos (nth (Z.to_nat pos) s "000"%byte)).
    rewrite <- Z.add_assoc. apply IH. lia.
Qed.

Lemma forward_cps cps :
  forallb code_point cps = true ->
  forall fuel size, 0 <= size -> (length cps <= fuel)%nat ->
    UTF8.forward fuel (concat cps) 0 size
    = len (concat (take (Z.to_nat size) cps)).
Proof.
  induction cps as [| c cps IH]; intros Hall fuel size Hsize Hfuel.
  - rewrite take_nil. destruct fuel; simpl; [reflexivity |].
    by rewrite andb_false_r.
  - simpl in Hall. apply andb_true_iff in Hall as [Hc Hcps].
    destruct fuel as [| fuel]; [simpl in Hfuel; lia |].
    destruct (code_point_spec c Hc) as (b & rest & Hcb & _ & Hseq & _).
    cbn [UTF8.forward concat].
    destruct (0 <? size) eqn:E1.
    + apply Z.ltb_lt in E1.
      assert (E2 : (0 <? len (c ++ concat cps)) = true)
        by (apply Z.ltb_lt; subst c; simpl; lia).
      rewrite E2. cbn [andb].
      replace (nth (Z.to_nat 0) (c ++ concat cps) "000"%byte) with b
        by (subst c; reflexivity).
      rewrite Hseq.
      replace (0 + len c) with (len c + 0) by lia.
      rewrite forward_shift by lia.
      rewrite (IH Hcps) by (simpl in Hfuel; lia).
      replace (Z.to_nat size) with (S (Z.to_nat (size - 1))) by lia.
      cbn [take concat]. rewrite length_app. lia.
    + apply Z.ltb_ge in E1. assert (size = 0) as -> by lia. reflexivity.
Qed.

Lemma backward_zero l : UTF8.backward l 0 = 0.
Proof. by destruct l. Qed.

Lemma backward_conts l tail size :
  forallb UTF8.isContinuationOctet l = true -> 0 < size ->
  UTF8.backward (l ++ tail) size = len l + UTF8.backward tail size.
Proof.
  intros Hl Hsize. induction l as [| b l IH]; [reflexivity |].
  simpl in Hl. apply andb_true_iff in Hl as [Hb Hl].
  cbn [app UTF8.backward]. rewrite Hb.
  destruct (0 <? size) eqn:E; [| apply Z.ltb_ge in E; lia].
  rewrite (IH Hl). simpl length. lia.
Qed.

Lemma backward_cp c tail size :
  code_point c = true -> 0 < size ->
  UTF8.backward (rev c ++ tail) size = len c + UTF8.backward tail (size - 1).
Proof.
  intros Hc Hsize.
  destruct (code_point_spec c Hc) as (b & rest & -> & Hb & _ & Hrest).
  simpl rev. rewrite <- app_assoc.
  rewrite backward_conts; try assumption.
  - cbn [app UTF8.backward]. rewrite Hb.
    destruct (0 <? size) eqn:E; [| apply Z.ltb_ge in E; lia].
    rewrite length_rev. simpl length. lia.
  - apply forallb_forall. intros x Hx. apply in_rev in Hx.
    by apply (proj1 (forallb_forall _ _) Hrest).
Qed.

Lemma backward_cps cps size :
  forallb code_point cps = true -> 0 <= size ->
  UTF8.backward (rev (concat cps)) size
  = len (concat (drop (length cps - Z.to_nat size) cps)).
Proof.
  revert size. induction cps as [| c cps IH] using rev_ind; intros size Hall Hsize.
  - rewrite drop_nil. reflexivity.
  - rewrite forallb_app in Hall. apply andb_true_iff in Hall as [Hcps Hc].
    simpl in Hc. rewrite andb_true_r in Hc.
    rewrite concat_app. simpl concat. rewrite app_nil_r, rev_app_distr.
    destruct (Z.eq_dec size 0) as [-> | Hne].
    + rewrite backward_zero. rewrite drop_ge by (simpl; lia). reflexivity.
    + rewrite backward_cp by (assumption || lia).
      rewrite (IH (size - 1) Hcps) by lia.
      rewrite length_app. simpl length.
      replace (length cps + 1 - Z.to_nat size)%nat
        with (length cps - Z.to_nat (size - 1))%nat by lia.
      rewrite drop_app_le by lia.
      rewrite concat_app. simpl concat. rewrite app_nil_r, !length_app. lia.
Qed.

Lemma concat_length_ge (cps : list (list byte)) :
  forallb code_point cps = true -> (length cps <= length (concat cps))%nat.
Proof.
  induction cps as [| c cps IH]; [simpl; lia |].
  simpl. rewrite andb_true_iff. intros [Hc Hcps].
  destruct (code_point_spec c Hc) as (b & rest & -> & _).
  rewrite length_app. simpl. specialize (IH Hcps). lia.
Qed.

Lemma spliceRow_cps cps r p L :
  forallb code_point cps = true -> 0 <= p <= len cps -> 0 <= L ->
  spliceRow true (concat cps) r p L
  = concat (take (Z.to_nat p) cps) ++ r ++ concat (drop (Z.to_nat (p + L)) cps).
Proof.
  intros Hall Hp HL. unfold spliceRow.
  rewrite (countCodePoints_cps cps Hall).
  rewrite (forward_cps cps Hall) by (try lia; by apply concat_length_ge).
  set (suf := if len cps <? p + L then 0 else len cps - p - L).
  assert (Hsuf : 0 <= suf <= len cps /\
                 drop (length cps - Z.to_nat suf) cps = drop (Z.to_nat (p + L)) cps).
  { subst suf. destruct (len cps <? p + L) eqn:E.
    - apply Z.ltb_lt in E. split; [lia |]. by rewrite !drop_ge by lia.
    - apply Z.ltb_ge in E. split; [lia |]. f_equal. lia. }
  destruct Hsuf as [Hsuf Hdrop].
  rewrite (backward_cps cps suf Hall) by lia. rewrite Hdrop.
  assert (Hsplit : forall k, concat cps = concat (take k cps) ++ concat (drop k cps))
    by (intros k; by rewrite <- concat_app, take_drop).
  assert (Hle : forall k, len (concat (take k cps)) <= len (concat cps))
    by (intros k; rewrite (Hsplit k) at 1; rewrite length_app; lia).
  f_equal; [| f_equal].
  - destruct (len (concat cps) <? len (concat (take (Z.to_nat p) cps))) eqn:E.
    + apply Z.ltb_lt in E. specialize (Hle (Z.to_nat p)). lia.
    + rewrite (Hsplit (Z.to_nat p)) at 1. rewrite to_nat_len.
      apply take_app_length.
  - rewrite (Hsplit (Z.to_nat (p + L))) at 1 2.
    apply drop_app_length'. rewrite length_app. lia.
Qed.

(** X12. Code-point mode, with the scanners as section 4.4 describes them:
    when the input row is a sequence of whole code points, the row splices
    code points, never octets: it is the first [p] code points, the
    replacement, and the code points from [p + L] on, [p] and [L] being the
    resolved prefix and removal lengths counted in code points. *)
Theorem code_points_are_kept_whole a n i (cps : list (list byte)) :
  wf_batch a n = true -> (i < n)%nat ->
  strAt (arg_input a) i = concat cps -> forallb code_point cps = true ->
  let r := strAt (arg_replace a) i in
  let p := getValidOffset (getInt (arg_offset a) i) (len cps) in
  let L := resolveLength (lengthAt a i) (UTF8.countCodePoints r) in
  rowAt (res_col (executeImpl true a n)) i
  = concat (take (Z.to_nat p) cps) ++ r ++ concat (drop (Z.to_nat (p + L)) cps).
Proof.
  intros Hwf Hi Hs Hall. cbv zeta. rewrite executeImpl_rowAt by assumption.
  destruct (wf_batch_row a n i Hwf Hi) as (Ho & Hl & Hb).
  apply is_int64_spec in Ho. rewrite Hs in *.
  pose proof (concat_length_ge cps Hall) as Hlen.
  unfold overlayRow. cbn [getSliceSize]. rewrite !slice_whole.
  rewrite (countCodePoints_cps cps Hall).
  pose proof (getValidOffset_range (getInt (arg_offset a) i) (len cps) Ho
                ltac:(lia)).
  pose proof (countCodePoints_range (strAt (arg_replace a) i)).
  pose proof (resolveLength_range (lengthAt a i)
                (UTF8.countCodePoints (strAt (arg_replace a) i)) Hl ltac:(lia)).
  apply spliceRow_cps; (assumption || lia).
Qed.

(** ** Further properties: batches *)

Lemma map_const_seq {A} (f : nat -> A) (v : A) k n :
  (forall i, f i = v) -> map f (seq k n) = replicate n v.
Proof.
  intros Hf. revert k. induction n as [| n IH]; intros k; [reflexivity |].
  simpl. by rewrite Hf, IH.
Qed.

(** X13. A batch whose four arguments are all constant yields [n] copies
    of the value of the one call. *)
Theorem constant_batch_repeats is_utf8 s r o l n :
  wf_batch (call s r o l) n = true -> (0 < n)%nat ->
  res_col (executeImpl is_utf8 (call s r o l) n)
  = fromRows (replicate n (overlay1 is_utf8 s r o l)).
Proof.
  intros Hwf Hn.
  assert (Hwf1 : wf_batch (call s r o l) 1 = true).
  { destruct (wf_batch_row (call s r o l) n 0 Hwf Hn) as (Ho & Hl & Hb).
    apply wf_call.
    - exact Ho.
    - unfold lengthAt, call in Hl. simpl in Hl. by destruct l.
    - exact Hb. }
  unfold overlay1. rewrite (executeImpl_rowAt is_utf8 _ 1 0) by (assumption || lia).
  rewrite executeImpl_rows by assumption. f_equal.
  unfold outRows. apply map_const_seq. intros i.
  unfold call, lengthAt. simpl. by destruct l.
Qed.

Lemma strAt_fromRows rows i :
  (i < length rows)%nat -> strAt (StrVector (fromRows rows)) i = nth i rows [].
Proof.
  intros Hi. simpl.
  by destruct (fromRows_spec rows i Hi) as (_ & _ & _ & H & _).
Qed.

Lemma endOffsets_shift base rows :
  endOffsets base rows = map (Z.add base) (endOffsets 0 rows).
Proof.
  revert base. induction rows as [| r rows IH]; intros base; [reflexivity |].
  simpl. rewrite (IH (base + len r + 1)), (IH (0 + len r + 1)), map_map.
  f_equal; [lia |]. apply map_ext. intros x. lia.
Qed.

Lemma wf_batchOf_lengths hl ins reps os ls n :
  wf_batch (batchOf hl ins reps os ls) n = true ->
  length ins = n /\ length reps = n /\ length os = n
  /\ (hl = true -> length ls = n).
Proof.
  unfold wf_batch, batchOf. simpl. rewrite !andb_true_iff.
  intros [[[[Hi Hr] Ho] Hl] _].
  apply wf_ColumnString_spec in Hi as (Hi & _).
  apply wf_ColumnString_spec in Hr as (Hr & _).
  unfold fromRows in Hi, Hr. simpl in Hi, Hr.
  rewrite endOffsets_length in Hi, Hr.
  destruct Ho as [Ho _]. apply Nat.eqb_eq in Ho.
  repeat split; try assumption.
  - intros ->. simpl in Hl. apply andb_true_iff in Hl as [Hl _].
    by apply Nat.eqb_eq in Hl.
Qed.

(** X14. A batch of per-row columns can be cut in two: the bytes of the
    whole batch's output are those of the first part's output followed by
    those of the second part's, and its end offsets are the first part's
    followed by the second part's moved behind the first part's bytes. *)
Theorem batch_splits is_utf8 hl ins1 ins2 reps1 reps2 os1 os2 ls1 ls2 n1 n2 :
  wf_batch (batchOf hl ins1 reps1 os1 ls1) n1 = true ->
  wf_batch (batchOf hl ins2 reps2 os2 ls2) n2 = true ->
  wf_batch (batchOf hl (ins1 ++ ins2) (reps1 ++ reps2) (os1 ++ os2) (ls1 ++ ls2))
           (n1 + n2) = true ->
  let out1 := res_col (executeImpl is_utf8 (batchOf hl ins1 reps1 os1 ls1) n1) in
  let out2 := res_col (executeImpl is_utf8 (batchOf hl ins2 reps2 os2 ls2) n2) in
  let out := res_col (executeImpl is_utf8
                        (batchOf hl (ins1 ++ ins2) (reps1 ++ reps2)
                                 (os1 ++ os2) (ls1 ++ ls2)) (n1 + n2)) in
  chars out = chars out1 ++ chars out2
  /\ offsets out
     = offsets out1 ++ map (Z.add (len (chars out1))) (offsets out2).
Proof.
  intros Hwf1 Hwf2 Hwf. cbv zeta.
  destruct (wf_batchOf_lengths _ _ _ _ _ _ Hwf1) as (Hi1 & Hr1 & Ho1 & Hl1).
  destruct (wf_batchOf_lengths _ _ _ _ _ _ Hwf2) as (Hi2 & Hr2 & Ho2 & Hl2).
  rewrite !executeImpl_rows by assumption.
  assert (Hrows : outRows is_utf8
                    (batchOf hl (ins1 ++ ins2) (reps1 ++ reps2) (os1 ++ os2)
                             (ls1 ++ ls2)) (n1 + n2)
                  = outRows is_utf8 (batchOf hl ins1 reps1 os1 ls1) n1
                    ++ outRows is_utf8 (batchOf hl ins2 reps2 os2 ls2) n2).
  { unfold outRows. rewrite seq_app, map_app. f_equal.
    - apply map_ext_in. intros i Hi. apply in_seq in Hi.
      unfold batchOf, lengthAt.
      cbn [arg_input arg_replace arg_offset arg_length getInt].
      rewrite !strAt_fromRows by (rewrite ?length_app; lia).
      rewrite !app_nth1 by lia.
      destruct hl; [| reflexivity].
      cbn [getInt]. rewrite app_nth1 by (rewrite Hl1 by reflexivity; lia).
      reflexivity.
    - change (0 + n1)%nat with n1.
      replace (seq n1 n2) with (map (Nat.add n1) (seq 0 n2))
        by (change (map (Nat.add n1) (seq 0 n2)) with (Nat.add n1 <$> seq 0 n2);
            rewrite fmap_add_seq; f_equal; lia).
      rewrite map_map. apply map_ext_in. intros i Hi. apply in_seq in Hi.
      unfold batchOf, lengthAt.
      cbn [arg_input arg_replace arg_offset arg_length getInt].
      rewrite !strAt_fromRows by (rewrite ?length_app; lia).
      rewrite !app_nth2 by lia.
      rewrite Hi1, Hr1, Ho1.
      replace (n1 + i - n1)%nat with i by lia.
      destruct hl; [| reflexivity].
      cbn [getInt]. rewrite app_nth2 by (rewrite Hl1 by reflexivity; lia).
      rewrite Hl1 by reflexivity.
      replace (n1 + i - n1)%nat with i by lia. reflexivity. }
  rewrite Hrows. unfold fromRows. cbn [chars offsets].
  rewrite terminated_app, endOffsets_app. split; [reflexivity |].
  f_equal. rewrite Z.add_0_l. apply endOffsets_shift.
Qed.

End Overlay.

(** ** The properties at sample inputs *)

(** At [input_size = 2^64 - 1], which no string in memory has,
    [input_size + 1] wraps to 0 and every positive offset resolves to
    [input_size]. *)
Remark getValidOffset_size_max : getValidOffset 1 (2 ^ 64 - 1) = 2 ^ 64 - 1.
Proof. reflexivity. Qed.

Lemma getValidOffset_resolves_witness :
  (- 2 ^ 63 <= - 2 ^ 63 < 2 ^ 63) /\ (0 <= 5 < 2 ^ 64 - 1)
  /\ 0 <= getValidOffset (- 2 ^ 63) 5 <= 5.
Proof.
  split; [lia | split; [lia |]].
  apply (getValidOffset_resolves (- 2 ^ 63) 5); lia.
Defined.

Lemma splice_bytes_correct_witness :
  res_offset sample_state = len (res_data sample_state)
  /\ res_data (splice "255"%byte false (chars sample_rows) 6 2 2
                 (bytes "XY") 0 2 2 1 sample_state)
     = bytes "ab" ++ ["000"%byte] ++ bytes "HiXY" ++ ["000"%byte].
Proof.
  split; [reflexivity |].
  apply (splice_bytes_correct "255"%byte (chars sample_rows) 6 2 (bytes "XY") 0 2
           1 sample_state); simpl; lia.
Defined.

Lemma length_resolution_witness :
  wf_batch (sample (StrConst (bytes "XY")) (IntConst (-3)) (Some (IntConst (-1)))) 2
  = true
  /\ res_col (executeImpl "255"%byte 7 false
                (sample (StrConst (bytes "XY")) (IntConst (-3))
                        (Some (IntConst (-1)))) 2)
     = res_col (executeImpl "255"%byte 7 false
                  (three_args (sample (StrConst (bytes "XY")) (IntConst (-3))
                                      (Some (IntConst (-1))))) 2).
Proof.
  split; [reflexivity |].
  pose proof (length_resolution "255"%byte 7 false
                (sample (StrConst (bytes "XY")) (IntConst (-3))
                        (Some (IntConst (-1))))
                2 (IntConst (-1)) eq_refl eq_refl) as H.
  cbv zeta in H. destruct H as (_ & _ & H).
  apply (H (-1)); [reflexivity | lia].
Defined.

Lemma dispatch_transparent_witness :
  wf_batch (sample (StrConst (bytes "XY")) (IntConst (-3)) (Some (IntConst 2))) 2
  = true
  /\ res_col (executeImpl "255"%byte 7 false
                (sample (StrVector (fromRows [bytes "XY"; bytes "XY"]))
                        (IntVector [-3; -3]) (Some (IntVector [2; 2]))) 2)
     = res_col (executeImpl "255"%byte 7 false
                  (sample (StrConst (bytes "XY")) (IntConst (-3))
                          (Some (IntConst 2))) 2).
Proof.
  split; [reflexivity |].
  destruct (dispatch_transparent "255"%byte 7 false
              (sample (StrConst (bytes "XY")) (IntConst (-3)) (Some (IntConst 2)))
              2 eq_refl) as (H & _).
  apply H; reflexivity.
Defined.

Lemma default_length_property_witness :
  wf_batch (sample (StrConst (bytes "XY")) (IntConst 2) None) 2 = true
  /\ wf_batch (sample (StrConst (bytes "XY")) (IntVector [2; 2])
                      (Some (IntConst 2))) 2 = true
  /\ res_col (executeImpl "255"%byte 7 false
                (sample (StrConst (bytes "XY")) (IntConst 2) None) 2)
     = res_col (executeImpl "255"%byte 7 false
                  (sample (StrConst (bytes "XY")) (IntVector [2; 2])
                          (Some (IntConst 2))) 2).
Proof.
  split; [reflexivity | split; [reflexivity |]].
  apply default_length_property; reflexivity.
Defined.

Lemma utf8_ascii_agreement_witness :
  wf_batch (sample (StrConst (bytes "XY")) (IntConst (-3)) (Some (IntConst 2))) 2
  = true
  /\ ascii_rows 2 (sample (StrConst (bytes "XY")) (IntConst (-3))
                          (Some (IntConst 2))) = true
  /\ res_col (executeImpl "255"%byte 7 true
                (sample (StrConst (bytes "XY")) (IntConst (-3))
                        (Some (IntConst 2))) 2)
     = res_col (executeImpl "255"%byte 7 false
                  (sample (StrConst (bytes "XY")) (IntConst (-3))
                          (Some (IntConst 2))) 2).
Proof.
  split; [reflexivity | split; [reflexivity |]].
  apply utf8_ascii_agreement; reflexivity.
Defined.

Lemma negative_offset_property_witness :
  related_rows 2
    (sample (StrConst (bytes "XY")) (IntVector [-3; -1]) (Some (IntConst 1)))
    (sample (StrConst (bytes "XY")) (IntVector [3; 2]) (Some (IntConst 1)))
    (mirrored_offset false) = true
  /\ res_col (executeImpl "255"%byte 7 false
                (sample (StrConst (bytes "XY")) (IntVector [-3; -1])
                        (Some (IntConst 1))) 2)
     = res_col (executeImpl "255"%byte 7 false
                  (sample (StrConst (bytes "XY")) (IntVector [3; 2])
                          (Some (IntConst 1))) 2).
Proof.
  split; [reflexivity |].
  apply negative_offset_property; reflexivity.
Defined.

Lemma output_well_formed_witness :
  wf_batch (sample (StrConst (bytes "XY")) (IntConst (-3)) (Some (IntConst 2))) 2
  = true
  /\ length (offsets (res_col (executeImpl "255"%byte 7 true
               (sample (StrConst (bytes "XY")) (IntConst (-3))
                       (Some (IntConst 2))) 2))) = 2%nat.
Proof.
  split; [reflexivity |].
  pose proof (output_well_formed "255"%byte 7 true
                (sample (StrConst (bytes "XY")) (IntConst (-3))
                        (Some (IntConst 2))) 2 eq_refl) as H.
  cbv zeta in H. destruct H as (H & _). exact H.
Defined.

(** The result that section 8 of the specification gives for the scenario,
    "abcello, World!", is not what any variant returns: shown for the
    all-constant and the all-per-row batch. *)
Lemma scenario_counterexample :
  res_col (executeImpl "255"%byte 7 false (scenario true true true) 1)
  <> fromRows [bytes "abcello, World!"]
  /\ res_col (executeImpl "255"%byte 7 false (scenario false false false) 1)
     <> fromRows [bytes "abcello, World!"].
Proof. split; vm_compute; discriminate. Qed.

(** ** The further properties at sample inputs *)

Lemma byte_row_length_witness :
  wf_batch (sample (StrConst (bytes "XY")) (IntConst (-3)) (Some (IntConst 2))) 2
  = true
  /\ len (rowAt (res_col (executeImpl "255"%byte 7 false
                   (sample (StrConst (bytes "XY")) (IntConst (-3))
                           (Some (IntConst 2))) 2)) 0) = 5.
Proof.
  split; [reflexivity |].
  rewrite byte_row_length by (reflexivity || lia). reflexivity.
Defined.

Lemma offset_past_end_appends_witness :
  wf_batch (sample (StrConst (bytes "XY")) (IntVector [0; 7]) (Some (IntConst 1))) 2
  = true
  /\ rowAt (res_col (executeImpl "255"%byte 7 false
              (sample (StrConst (bytes "XY")) (IntVector [0; 7])
                      (Some (IntConst 1))) 2)) 1
     = bytes "Hi" ++ bytes "XY".
Proof.
  split; [reflexivity |].
  apply (offset_past_end_appends "255"%byte 7
           (sample (StrConst (bytes "XY")) (IntVector [0; 7]) (Some (IntConst 1)))
           2 1 eq_refl); [lia | right; reflexivity].
Defined.

Lemma offset_at_start_replaces_head_witness :
  wf_batch (sample (StrConst (bytes "XY")) (IntVector [1; -9]) (Some (IntConst 9))) 2
  = true
  /\ rowAt (res_col (executeImpl "255"%byte 7 false
              (sample (StrConst (bytes "XY")) (IntVector [1; -9])
                      (Some (IntConst 9))) 2)) 1
     = bytes "XY".
Proof.
  split; [reflexivity |].
  pose proof (offset_at_start_replaces_head "255"%byte 7
                (sample (StrConst (bytes "XY")) (IntVector [1; -9])
                        (Some (IntConst 9)))
                2 1 eq_refl ltac:(lia)) as H.
  cbv zeta in H. destruct H as [_ H].
  - right. vm_compute. discriminate.
  - apply H. vm_compute. discriminate.
Defined.

Lemma empty_replacement_keeps_input_witness :
  wf_batch (sample (StrConst []) (IntVector [3; -1]) None) 2 = true
  /\ rowAt (res_col (executeImpl "255"%byte 7 false
              (sample (StrConst []) (IntVector [3; -1]) None) 2)) 0
     = bytes "Hello".
Proof.
  split; [reflexivity |].
  apply (empty_replacement_keeps_input "255"%byte 7
           (sample (StrConst []) (IntVector [3; -1]) None) 2 0 eq_refl);
    [lia | reflexivity | exact I].
Defined.

Lemma empty_input_yields_replacement_witness :
  wf_batch (call [] (bytes "XY") (-4) (Some 3)) 1 = true
  /\ rowAt (res_col (executeImpl "255"%byte 7 true
              (call [] (bytes "XY") (-4) (Some 3)) 1)) 0
     = bytes "XY".
Proof.
  split; [reflexivity |].
  apply (empty_input_yields_replacement "255"%byte 7 true
           (call [] (bytes "XY") (-4) (Some 3)) 1 0 eq_refl);
    [lia | reflexivity].
Defined.

Lemma offset_canonical_witness :
  related_rows 2
    (sample (StrConst (bytes "XY")) (IntVector [-3; 100]) (Some (IntConst 1)))
    (sample (StrConst (bytes "XY")) (IntConst 3) (Some (IntConst 1)))
    (canonical_offset false) = true
  /\ res_col (executeImpl "255"%byte 7 false
                (sample (StrConst (bytes "XY")) (IntVector [-3; 100])
                        (Some (IntConst 1))) 2)
     = res_col (executeImpl "255"%byte 7 false
                  (sample (StrConst (bytes "XY")) (IntConst 3)
                          (Some (IntConst 1))) 2).
Proof.
  split; [reflexivity |].
  apply offset_canonical; reflexivity.
Defined.

Lemma overlay_again_replaces_replacement_witness :
  (1 <= 8 <= len (bytes "Hello, World!") + 1)
  /\ overlay1 "255"%byte 7 false
       (overlay1 "255"%byte 7 false (bytes "Hello, World!") (bytes "abc") 8 (Some 5))
       (bytes "Rocq") 8 (Some (len (bytes "abc")))
     = overlay1 "255"%byte 7 false (bytes "Hello, World!") (bytes "Rocq") 8 (Some 5).
Proof.
  split; [simpl; lia |].
  apply overlay_again_replaces_replacement; simpl; lia.
Defined.

Lemma overlay_undo_witness :
  (1 <= 8 <= len (bytes "Hello, World!") + 1)
  /\ overlay1 "255"%byte 7 false
       (overlay1 "255"%byte 7 false (bytes "Hello, World!") (bytes "abc") 8 (Some 5))
       (slice (bytes "Hello, World!") (8 - 1) 5) 8 (Some (len (bytes "abc")))
     = bytes "Hello, World!".
Proof.
  split; [simpl; lia |].
  apply overlay_undo; simpl; lia.
Defined.

Lemma overlay_default_idempotent_witness :
  (1 <= 8 <= len (bytes "Hello, World!") + 1)
  /\ overlay1 "255"%byte 7 false
       (overlay1 "255"%byte 7 false (bytes "Hello, World!") (bytes "abc") 8 None)
       (bytes "abc") 8 None
     = overlay1 "255"%byte 7 false (bytes "Hello, World!") (bytes "abc") 8 None.
Proof.
  split; [simpl; lia |].
  apply overlay_default_idempotent; simpl; lia.
Defined.

Lemma output_is_input_column_witness :
  wf_batch (sample (StrConst (bytes "XY")) (IntConst (-3)) (Some (IntConst 2))) 2
  = true
  /\ wf_ColumnString 2
       (res_col (executeImpl "255"%byte 7 true
                   (sample (StrConst (bytes "XY")) (IntConst (-3))
                           (Some (IntConst 2))) 2)) = true.
Proof.
  split; [reflexivity |].
  apply (output_is_input_column "255"%byte 7 true
           (sample (StrConst (bytes "XY")) (IntConst (-3)) (Some (IntConst 2))) 2
           eq_refl).
Defined.

Lemma resolver_runs_witness :
  (0 < 2)%nat
  /\ runs Splice
       (ran (executeImpl "255"%byte 7 false
               (sample (StrConst (bytes "XY")) (IntConst (-3)) None) 2)) = 2%nat.
Proof.
  split; [lia |].
  apply (resolver_runs "255"%byte 7 false
           (sample (StrConst (bytes "XY")) (IntConst (-3)) None) 2).
  lia.
Defined.

Lemma code_points_are_kept_whole_witness :
  forallb code_point
    [bytes "M"; ["195"%byte; "188"%byte]; bytes "n"; bytes "c"; bytes "h";
     bytes "e"; bytes "n"] = true
  /\ rowAt (res_col (executeImpl "255"%byte 7 true
              (call Muenchen (bytes "X") 2 (Some 1)) 1)) 0
     = bytes "MXnchen".
Proof.
  split; [reflexivity |].
  apply (code_points_are_kept_whole "255"%byte 7
           (call Muenchen (bytes "X") 2 (Some 1)) 1 0
           [bytes "M"; ["195"%byte; "188"%byte]; bytes "n"; bytes "c"; bytes "h";
            bytes "e"; bytes "n"] eq_refl);
    [lia | reflexivity | reflexivity].
Defined.

Lemma constant_batch_repeats_witness :
  wf_batch (call (bytes "Hello") (bytes "XY") (-3) (Some 2)) 3 = true
  /\ res_col (executeImpl "255"%byte 7 false
                (call (bytes "Hello") (bytes "XY") (-3) (Some 2)) 3)
     = fromRows (replicate 3 (overlay1 "255"%byte 7 false (bytes "Hello")
                                (bytes "XY") (-3) (Some 2))).
Proof.
  split; [reflexivity |].
  apply constant_batch_repeats; [reflexivity | lia].
Defined.

Lemma batch_splits_witness :
  wf_batch (batchOf true [bytes "Hello"; bytes "Hi"] [bytes "XY"; bytes "Z"]
                    [2; 1] [1; 0]) 2 = true
  /\ chars (res_col (executeImpl "255"%byte 7 false
              (batchOf true ([bytes "Hello"] ++ [bytes "Hi"])
                       ([bytes "XY"] ++ [bytes "Z"]) ([2] ++ [1]) ([1] ++ [0]))
              (1 + 1)))
     = chars (res_col (executeImpl "255"%byte 7 false
                (batchOf true [bytes "Hello"] [bytes "XY"] [2] [1]) 1))
       ++ chars (res_col (executeImpl "255"%byte 7 false
                   (batchOf true [bytes "Hi"] [bytes "Z"] [1] [0]) 1)).
Proof.
  split; [reflexivity |].
  apply (batch_splits "255"%byte 7 false true
           [bytes "Hello"] [bytes "Hi"] [bytes "XY"] [bytes "Z"] [2] [1] [1] [0]
           1 1 eq_refl eq_refl eq_refl).
Defined.
